(** * Schema graph construction and Go type emission (package [introspect])

    A shallow embedding of [pkg/gql/introspect]: the schema model of
    [types.go], the type mapper and identifier exporter of [util.go], and the
    node graph (Collect / Link / cycle marking) and code emitter of the node
    file, followed by the properties established about them.

    Conventions of the embedding
    - Go strings are byte strings: [string] (a list of [ascii] bytes).
    - [TypeKind] is a Go [int]; it is kept as [Z] so that values outside the
      nine declared constants exist, as they do in Go.
    - A run-time panic (nil dereference, slice out of range, the explicit
      [panic] of [ToGoTypes]) is a value [Abort _] of the [result] type.
    - The node graph is an arena: [*Node] pointers held by the graph are the
      keys of [hashMap] (every node is stored under its own [Name]), so a
      [Children] slice is a list of keys.  Each [*FieldMeta] is owned by one
      node ([NewNode] allocates them afresh), so mutation of a field through
      its pointer is an update of the owning node in the arena. *)

From Stdlib Require Import ZArith Ascii String.
From stdpp Require Import gmap strings list fin_maps.

Local Open Scope string_scope.
Local Open Scope list_scope.
Local Open Scope Z_scope.

Set Warnings "-register-all,-clear-no-such-hyp".

(** ** Results of partial operations *)

(** Why a call did not return normally.  The first three are Go panics; the
    last one belongs to the embedding only: the recursion of [hasCycleWith]
    is driven by a step budget, and [FuelExhausted] says the budget ran out
    (shown below never to happen under [Link]). *)
Inductive abort : Type :=
| NilDereference
| SliceOutOfRange
| UnsupportedType (k : Z)
| FuelExhausted.

Inductive result (A : Type) : Type :=
| Ok (a : A)
| Abort (e : abort).

Arguments Ok {A} a.
Arguments Abort {A} e.

#[global] Instance result_ret : MRet result := fun A a => Ok a.
#[global] Instance result_bind : MBind result := fun A B f m =>
  match m with
  | Ok a => f a
  | Abort e => Abort e
  end.
#[global] Instance result_fmap : FMap result := fun A B f m =>
  match m with
  | Ok a => Ok (f a)
  | Abort e => Abort e
  end.

Definition is_Ok {A} (r : result A) : Prop := exists a, r = Ok a.

(** [mapR f l]: run [f] on the elements of [l] from left to right, stopping at
    the first abort. *)
Fixpoint mapR {A B} (f : A -> result B) (l : list A) : result (list B) :=
  match l with
  | [] => Ok []
  | x :: l' => y ← f x; ys ← mapR f l'; Ok (y :: ys)
  end.

(** ** types.go: the schema model *)

Abbreviation TypeKind := Z.

Definition NULL : TypeKind := 0.
Definition NON_NULL : TypeKind := 1.
Definition SCALAR : TypeKind := 2.
Definition OBJECT : TypeKind := 3.
Definition INTERFACE : TypeKind := 4.
Definition UNION : TypeKind := 5.
Definition ENUM : TypeKind := 6.
Definition INPUT_OBJECT : TypeKind := 7.
Definition LIST : TypeKind := 8.

(** The nine literals accepted by [UnmarshalJSON], with their kinds. *)
Definition kindLiterals : list (string * TypeKind) :=
  [ ("NULL", NULL); ("NON_NULL", NON_NULL); ("SCALAR", SCALAR);
    ("OBJECT", OBJECT); ("INTERFACE", INTERFACE); ("UNION", UNION);
    ("ENUM", ENUM); ("INPUT_OBJECT", INPUT_OBJECT); ("LIST", LIST) ].

Section Decode.
(** [strconv.Unquote] of the Go standard library with its error dropped, as
    in [kindStr, _ := strconv.Unquote(string(kind))]: the unquoted text, or
    the empty string when the input is not a quoted Go string. *)
Variable Unquote : string -> string.

(** [func (k *TypeKind) UnmarshalJSON(kind []byte) error].  The pair is the
    value of [*k] after the call and the returned error ([None] is [nil]);
    the error text is [fmt.Errorf("unknown type kind: %s", kind)]. *)
Definition UnmarshalJSON (k : TypeKind) (kind : string)
  : TypeKind * option string :=
  let kindStr := Unquote kind in
  if String.eqb kindStr "NULL" then (NULL, None)
  else if String.eqb kindStr "NON_NULL" then (NON_NULL, None)
  else if String.eqb kindStr "SCALAR" then (SCALAR, None)
  else if String.eqb kindStr "OBJECT" then (OBJECT, None)
  else if String.eqb kindStr "INTERFACE" then (INTERFACE, None)
  else if String.eqb kindStr "UNION" then (UNION, None)
  else if String.eqb kindStr "ENUM" then (ENUM, None)
  else if String.eqb kindStr "INPUT_OBJECT" then (INPUT_OBJECT, None)
  else if String.eqb kindStr "LIST" then (LIST, None)
  else (k, Some ("unknown type kind: " +:+ kind)).
End Decode.

(** [TypeRef]: [OfType *TypeRef] is [option TypeRef] ([None] is [nil]). *)
Inductive TypeRef : Type :=
  mkTypeRef { tr_Kind : TypeKind; tr_Name : string; tr_OfType : option TypeRef }.

(** [Field] and [InputField] (the members read by the node builder). *)
Record Field : Type := mkField { f_Name : string; f_Type : TypeRef }.
Record InputField : Type := mkInputField { if_Name : string; if_Type : TypeRef }.
Record EnumValue : Type := mkEnumValue { ev_Name : string }.

(** [Type] (the members read by the node builder). *)
Record SchemaType : Type := mkType {
  t_Kind : TypeKind;
  t_Name : string;
  t_Fields : list Field;
  t_InputFields : list InputField;
  t_EnumValues : list EnumValue
}.

(** ** util.go: the type mapper *)

(** [gqlTypeToGoType].  [*ref.OfType] on a nil pointer is a panic; the
    [NON_NULL] and [LIST] cases test for nil first, the [NULL] case does
    not. *)
Fixpoint gqlTypeToGoType (ref : TypeRef) : result string :=
  match ref with
  | mkTypeRef kind name ofType =>
    if kind =? SCALAR then
      if String.eqb name "Int" then Ok "int"
      else if String.eqb name "Float" then Ok "float64"
      else if String.eqb name "Decimal" then Ok "float64"
      else if String.eqb name "String" then Ok "string"
      else if String.eqb name "Boolean" then Ok "bool"
      else if String.eqb name "ID" then Ok "string"
      else Ok "string"
    else if kind =? OBJECT then Ok name
    else if kind =? NON_NULL then
      match ofType with
      | Some r => gqlTypeToGoType r
      | None => Ok name
      end
    else if kind =? NULL then
      match ofType with
      | Some r => gqlTypeToGoType r
      | None => Abort NilDereference
      end
    else if kind =? LIST then
      match ofType with
      | Some r =>
        if negb (String.eqb (tr_Name r) EmptyString)
        then s ← gqlTypeToGoType r; Ok ("[]" +:+ s)
        else Ok "[]any"
      | None => Ok "[]any"
      end
    else if kind =? ENUM then Ok name
    else if kind =? INPUT_OBJECT then Ok name
    else if kind =? INTERFACE then Ok name
    else if kind =? UNION then Ok "any"
    else Ok "any"
  end.

(** ** Byte-string helpers ([strings] and [fmt] of the Go standard library) *)

Definition TAB : string := String "009"%char EmptyString.
Definition LF : string := String "010"%char EmptyString.
Definition DQ : string := String "034"%char EmptyString.

(** [strings.HasSuffix]. *)
Definition HasSuffix (s suffix : string) : bool :=
  Nat.leb (String.length suffix) (String.length s)
  && String.eqb
       (substring (String.length s - String.length suffix) (String.length suffix) s)
       suffix.

(** [strings.Split(s, sep)] for a one-byte separator. *)
Fixpoint Split (sep : ascii) (s : string) : list string :=
  match s with
  | EmptyString => [EmptyString]
  | String c s' =>
    if Ascii.eqb c sep then EmptyString :: Split sep s'
    else match Split sep s' with
         | w :: ws => String c w :: ws
         | [] => [String c EmptyString]
         end
  end.

(** [strings.Join]. *)
Definition Join (elems : list string) (sep : string) : string :=
  String.concat sep elems.

(** [fmt.Sprintf] restricted to what the emitter uses: the verb [%s] with
    string operands; every other byte of the format is copied. *)
Fixpoint Sprintf (format : string) (args : list string) : string :=
  match format with
  | EmptyString => EmptyString
  | String c rest =>
    match rest with
    | String v rest' =>
      if Ascii.eqb c "%"%char && Ascii.eqb v "s"%char then
        match args with
        | a :: args' => a +:+ Sprintf rest' args'
        | [] => "%!s(MISSING)" +:+ Sprintf rest' []
        end
      else String c (Sprintf rest args)
    | EmptyString => String c EmptyString
    end
  end.

(** ** util.go: the identifier exporter *)

Definition special : list (string * string) :=
  [ ("id", "ID"); ("uri", "URI"); ("url", "URL"); ("api", "API") ].

Definition exceptions : list string := [ "valid"; "invalid"; "liquid" ].

Section Exporter.
(** [strings.ToLower] and [strings.ToUpper] of the Go standard library. *)
Variables ToLower ToUpper : string -> string.

Definition hasSuffix (s suffix : string) : bool :=
  HasSuffix (ToLower s) suffix.

(** [strings.ToUpper(s[:1]) + s[1:]]; slicing the empty string panics. *)
Definition toUpper (s : string) : result string :=
  match s with
  | EmptyString => Abort SliceOutOfRange
  | String c s' => Ok (ToUpper (String c EmptyString) +:+ s')
  end.

(** The closure [capitalizeWord].  [special] is a Go map; its two uses are a
    lookup and a [range] that returns at the first key matching as a proper
    suffix.  No word ends in two of the four keys, so the order in which
    the [range] visits them does not matter; the list order is used. *)
Definition capitalizeWord (word : string) : string :=
  match find (fun kv => String.eqb (fst kv) word) special with
  | Some kv => snd kv
  | None =>
    if existsb (fun v => Nat.leb (String.length v) (String.length word)
                         && hasSuffix word v) exceptions
    then word
    else
      match find (fun kv => Nat.ltb (String.length (fst kv)) (String.length word)
                            && hasSuffix word (fst kv)) special with
      | Some kv =>
        substring 0 (String.length word - String.length (fst kv)) word +:+ snd kv
      | None => word
      end
  end.

Definition capitalize (input : string) : result string :=
  if String.eqb input EmptyString then Ok input
  else
    words ← mapR (fun word => toUpper (capitalizeWord word)) (Split "_"%char input);
    Ok (Join words EmptyString).
End Exporter.

(** ** The node file: nodes and the node builder *)

Record FieldMeta : Type := mkFieldMeta {
  fm_Name : string;
  fm_Type : string;
  fm_JSONTag : string;
  fm_hasCycle : bool;
  fm_isNullable : bool
}.

(** [Children []*Node] holds keys of the graph's [hashMap]. *)
Record Node : Type := mkNode {
  n_Name : string;
  n_Kind : TypeKind;
  n_Fields : list FieldMeta;
  n_Children : list string
}.

Definition isNil (p : option TypeRef) : bool :=
  match p with
  | None => true
  | Some _ => false
  end.

(** The [FieldMeta] literal built for a field or an input field named [name]
    of type [ty]. *)
Definition newFieldMeta (name : string) (ty : TypeRef) : result FieldMeta :=
  goType ← gqlTypeToGoType ty;
  Ok {| fm_Name := name;
        fm_Type := goType;
        fm_JSONTag := name;
        fm_hasCycle := false;
        fm_isNullable := (tr_Kind ty =? NULL) || isNil (tr_OfType ty) |}.

(** The [FieldMeta] literal built for an enum value of the enum [enumName]. *)
Definition newEnumFieldMeta (enumName : string) (v : EnumValue) : FieldMeta :=
  {| fm_Name := ev_Name v;
     fm_Type := enumName;
     fm_JSONTag := ev_Name v;
     fm_hasCycle := false;
     fm_isNullable := false |}.

(** [NewNode]. *)
Definition NewNode (schema : SchemaType) : result Node :=
  let kind := t_Kind schema in
  fields ←
    (if (kind =? OBJECT) || (kind =? INTERFACE) || (kind =? UNION) then
       mapR (fun f => newFieldMeta (f_Name f) (f_Type f)) (t_Fields schema)
     else if kind =? INPUT_OBJECT then
       mapR (fun f => newFieldMeta (if_Name f) (if_Type f)) (t_InputFields schema)
     else if kind =? ENUM then
       Ok (map (newEnumFieldMeta (t_Name schema)) (t_EnumValues schema))
     else Ok []);
  Ok {| n_Name := t_Name schema;
        n_Kind := kind;
        n_Fields := fields;
        n_Children := [] |}.

(** ** The node file: the code emitter *)

Definition tmplValue : string :=
  TAB +:+ "%s %s `json:" +:+ DQ +:+ "%s" +:+ DQ +:+ "`" +:+ LF.
Definition tmplOmitEmpty : string :=
  TAB +:+ "%s *%s `json:" +:+ DQ +:+ "%s,omitempty" +:+ DQ +:+ "`" +:+ LF.
Definition tmplPointer : string :=
  TAB +:+ "%s *%s `json:" +:+ DQ +:+ "%s" +:+ DQ +:+ "`" +:+ LF.

(** The value of [fieldTmpl] when the loop body of [toGoStruct] reaches its
    [Sprintf]: assigned, then overwritten by each of the two tests in turn. *)
Definition structFieldTmpl (f : FieldMeta) : string :=
  let fieldTmpl := tmplValue in
  let fieldTmpl := if fm_isNullable f then tmplOmitEmpty else fieldTmpl in
  let fieldTmpl := if fm_hasCycle f then tmplPointer else fieldTmpl in
  fieldTmpl.

Section Emitter.
Variables ToLower ToUpper : string -> string.

Let capitalize := capitalize ToLower ToUpper.

(** One iteration of the field loop of [toGoStruct]. *)
Definition structFieldLine (f : FieldMeta) : result string :=
  name ← capitalize (fm_Name f);
  Ok (Sprintf (structFieldTmpl f) [name; fm_Type f; fm_JSONTag f]).

Definition toGoStruct (n : Node) : result string :=
  lines ← mapR structFieldLine (n_Fields n);
  Ok (Sprintf ("type %s struct {" +:+ LF) [n_Name n]
      +:+ Join lines EmptyString +:+ "}" +:+ LF).

Definition toGoInterface (n : Node) : result string :=
  lines ← mapR (fun f =>
                  name ← capitalize (fm_Name f);
                  Ok (Sprintf (TAB +:+ "%s() %s" +:+ LF) [name; fm_Type f]))
               (n_Fields n);
  Ok (Sprintf ("type %s interface {" +:+ LF) [n_Name n]
      +:+ Join lines EmptyString +:+ "}" +:+ LF).

Definition toGoEnum (n : Node) : result string :=
  lines ← mapR (fun f =>
                  name ← capitalize (ToLower (fm_Name f));
                  Ok (Sprintf (TAB +:+ "%s%s %s = " +:+ DQ +:+ "%s" +:+ DQ +:+ LF)
                              [n_Name n; name; n_Name n; fm_Name f]))
               (n_Fields n);
  Ok (Sprintf ("type %s string" +:+ LF +:+ LF) [n_Name n]
      +:+ "const (" +:+ LF
      +:+ Join lines EmptyString +:+ ")" +:+ LF).

(** The body of the [switch nd.Kind] of [ToGoTypes]. *)
Definition emitNode (nd : Node) : result string :=
  let kind := n_Kind nd in
  if (kind =? OBJECT) || (kind =? INPUT_OBJECT) || (kind =? UNION) then toGoStruct nd
  else if kind =? INTERFACE then toGoInterface nd
  else if kind =? ENUM then toGoEnum nd
  else Abort (UnsupportedType kind).
End Emitter.

(** ** The node file: the node graph *)

Record Nodes : Type := mkNodes {
  hashMap : gmap string Node;
  sortOrder : list string
}.

Definition NewNodes : Nodes := {| hashMap := ∅; sortOrder := [] |}.

(** [Collect]. *)
Definition Collect (n : Nodes) (nd : Node) : Nodes :=
  match hashMap n !! n_Name nd with
  | Some _ => n
  | None => {| hashMap := <[n_Name nd := nd]> (hashMap n);
               sortOrder := sortOrder n ++ [n_Name nd] |}
  end.

Section Emission.
Variables ToLower ToUpper : string -> string.

(** The slice [out] of [ToGoTypes] when its loop ends.  [n.hashMap[v]] of an
    absent key is a nil [*Node], and reading its [Kind] panics. *)
Definition ToGoTypes_out (n : Nodes) : result (list string) :=
  mapR (fun v =>
          match hashMap n !! v with
          | None => Abort NilDereference
          | Some nd => emitNode ToLower ToUpper nd
          end)
       (sortOrder n).

Definition ToGoTypes (n : Nodes) : result string :=
  out ← ToGoTypes_out n;
  Ok (Join out LF).
End Emission.

(** *** Link: child edges *)

(** The field loop of the first pass of [Link] for one node: [children] is
    [nd.Children] and [seen] the local set of that iteration. *)
Fixpoint linkFields (hm : gmap string Node) (fields : list FieldMeta)
         (seen : gset string) (children : list string) : list string :=
  match fields with
  | [] => children
  | f :: fields' =>
    match hm !! fm_Type f with
    | None => linkFields hm fields' seen children
    | Some _ =>
      linkFields hm fields' ({[fm_Type f]} ∪ seen)
                 (if decide (fm_Type f ∈ seen) then children
                  else children ++ [fm_Type f])
    end
  end.

Definition linkNode (hm : gmap string Node) (nd : Node) : Node :=
  {| n_Name := n_Name nd;
     n_Kind := n_Kind nd;
     n_Fields := n_Fields nd;
     n_Children := linkFields hm (n_Fields nd) ∅ (n_Children nd) |}.

(** The first pass of [Link].  The Go loop ranges over the map in an
    unspecified order; an iteration writes the [Children] of its own node only
    and reads nothing but that node's fields and the key set, which no
    iteration changes, so every order yields this map. *)
Definition linkChildren (hm : gmap string Node) : gmap string Node :=
  linkNode hm <$> hm.

(** The first pass of [Link] as the Go loop runs it, when the [range] visits
    the keys in the order [order]: the iteration for [k] appends to the
    [Children] of the node stored under [k]. *)
Definition linkStep (hm : gmap string Node) (k : string) : gmap string Node :=
  match hm !! k with
  | Some nd => <[k := linkNode hm nd]> hm
  | None => hm
  end.

Definition linkChildrenIn (order : list string) (hm : gmap string Node)
  : gmap string Node :=
  foldl linkStep hm order.

(** The arena when the iterations for the keys of [done] have run. *)
Definition linkedOn (done : gset string) (hm : gmap string Node)
  : gmap string Node :=
  map_imap (fun k nd => Some (if decide (k ∈ done) then linkNode hm nd else nd)) hm.

(** *** Link: cycle marking *)

Definition isObjectKind (k : TypeKind) : bool :=
  negb (negb (k =? OBJECT) && negb (k =? INPUT_OBJECT)).

(** The [for _, c := range n1.Children] loop of [hasCycleWith]; [call] is the
    recursive call [n1.hasCycleWith(c, seen)].  The map [seen] is shared by
    all calls, so it is threaded through them. *)
Fixpoint cycleLoop (call : string -> gset string -> result (bool * gset string))
         (children : list string) (seen : gset string)
  : result (bool * gset string) :=
  match children with
  | [] => Ok (false, seen)
  | c :: children' =>
    match call c seen with
    | Abort e => Abort e
    | Ok (true, seen') => Ok (true, seen')
    | Ok (false, seen') => cycleLoop call children' seen'
    end
  end.

(** [func (n *Node) hasCycleWith(n1 *Node, seen map[string]struct{}) bool],
    returning the answer and the final contents of [seen].  [n] and [n1] are
    keys; [n.Name] is the key [n].  [fuel] bounds the depth of the
    recursion. *)
Fixpoint hasCycleWith (fuel : nat) (hm : gmap string Node) (n n1 : string)
         (seen : gset string) : result (bool * gset string) :=
  match fuel with
  | O => Abort FuelExhausted
  | S fuel' =>
    if decide (n ∈ seen) then Ok (true, seen)
    else
      match hm !! n1 with
      | None => Abort NilDereference
      | Some nd1 =>
        if negb (n_Kind nd1 =? OBJECT) && negb (n_Kind nd1 =? INPUT_OBJECT)
        then Ok (false, seen)
        else cycleLoop (hasCycleWith fuel' hm n1) (n_Children nd1) ({[n]} ∪ seen)
      end
  end.

Definition setCycle (f : FieldMeta) : FieldMeta :=
  {| fm_Name := fm_Name f;
     fm_Type := fm_Type f;
     fm_JSONTag := fm_JSONTag f;
     fm_hasCycle := true;
     fm_isNullable := fm_isNullable f |}.

(** The inner loop of [markCycles]: [f.hasCycle = true] on the fields whose
    type is the child's name. *)
Definition markFields (c : string) (fields : list FieldMeta) : list FieldMeta :=
  map (fun f => if String.eqb (fm_Type f) c then setCycle f else f) fields.

Definition setFields (nd : Node) (fields : list FieldMeta) : Node :=
  {| n_Name := n_Name nd;
     n_Kind := n_Kind nd;
     n_Fields := fields;
     n_Children := n_Children nd |}.

(** The outer loop of [markCycles] for the node stored under [n], over the
    remaining children [cs]. *)
Fixpoint markLoop (fuel : nat) (n : string) (cs : list string)
         (hm : gmap string Node) : result (gmap string Node) :=
  match cs with
  | [] => Ok hm
  | c :: cs' =>
    match hasCycleWith fuel hm n c ∅ with
    | Abort e => Abort e
    | Ok (false, _) => markLoop fuel n cs' hm
    | Ok (true, _) =>
      match hm !! n with
      | None => Abort NilDereference
      | Some nd =>
        markLoop fuel n cs' (<[n := setFields nd (markFields c (n_Fields nd))]> hm)
      end
    end
  end.

(** [markCycles] on the node stored under [n]. *)
Definition markCycles (fuel : nat) (hm : gmap string Node) (n : string)
  : result (gmap string Node) :=
  match hm !! n with
  | None => Abort NilDereference
  | Some nd => markLoop fuel n (n_Children nd) hm
  end.

(** The second pass of [Link]. *)
Fixpoint markAll (fuel : nat) (order : list string) (hm : gmap string Node)
  : result (gmap string Node) :=
  match order with
  | [] => Ok hm
  | o :: order' => hm' ← markCycles fuel hm o; markAll fuel order' hm'
  end.

(** [Link].  The recursion of [hasCycleWith] is given a budget of one more
    than the number of registered nodes. *)
Definition Link (n : Nodes) : result Nodes :=
  hm ← markAll (S (size (hashMap n))) (sortOrder n) (linkChildren (hashMap n));
  Ok {| hashMap := hm; sortOrder := sortOrder n |}.

(** The graph of a schema: [NewNode] and [Collect] for every type in order. *)
Definition collectAll (nds : list Node) : Nodes := foldl Collect NewNodes nds.

Definition buildGraph (types : list SchemaType) : result Nodes :=
  nds ← mapR NewNode types;
  Link (collectAll nds).

(** ** Instances of the library functions on ASCII text, for running the
    embedding on the repository's test data *)

Definition asciiUpper (c : ascii) : ascii :=
  let n := nat_of_ascii c in
  if Nat.leb 97 n && Nat.leb n 122 then ascii_of_nat (n - 32) else c.

Definition asciiLower (c : ascii) : ascii :=
  let n := nat_of_ascii c in
  if Nat.leb 65 n && Nat.leb n 90 then ascii_of_nat (n + 32) else c.

Fixpoint mapBytes (f : ascii -> ascii) (s : string) : string :=
  match s with
  | EmptyString => EmptyString
  | String c s' => String (f c) (mapBytes f s')
  end.

(** [strings.ToUpper] and [strings.ToLower] on strings of ASCII bytes. *)
Definition ToUpperASCII : string -> string := mapBytes asciiUpper.
Definition ToLowerASCII : string -> string := mapBytes asciiLower.

(** [strconv.Unquote] (error dropped) on a double-quoted text whose body is
    made of printable ASCII bytes other than the quote and the backslash: the
    body.  Elsewhere (escapes, single-quoted and back-quoted literals) this
    instance is not meant to be used and yields the empty string. *)
Definition plainByte (c : ascii) : bool :=
  let n := nat_of_ascii c in
  Nat.leb 32 n && Nat.ltb n 127 && negb (Nat.eqb n 34) && negb (Nat.eqb n 92).

Fixpoint unquoteBody (s : string) : option string :=
  match s with
  | EmptyString => None
  | String c s' =>
    if Ascii.eqb c "034"%char then
      match s' with
      | EmptyString => Some EmptyString
      | String _ _ => None
      end
    else if plainByte c then
      match unquoteBody s' with
      | Some body => Some (String c body)
      | None => None
      end
    else None
  end.

Definition UnquotePlain (s : string) : string :=
  match s with
  | EmptyString => EmptyString
  | String c s' =>
    if Ascii.eqb c "034"%char then
      match unquoteBody s' with
      | Some body => body
      | None => EmptyString
      end
    else EmptyString
  end.

(** ** Notions used in the statements *)

(** A node as [NewNode] (or the test helper [createNode]) hands it to
    [Collect]: no child linked yet, no field flagged. *)
Definition freshNode (nd : Node) : Prop :=
  n_Children nd = [] /\ Forall (fun f => fm_hasCycle f = false) (n_Fields nd).

(** [x] is registered and of kind [OBJECT] or [INPUT_OBJECT]. *)
Definition objectNode (hm : gmap string Node) (x : string) : Prop :=
  exists nd, hm !! x = Some nd /\ isObjectKind (n_Kind nd) = true.

(** [y] is a direct child of the registered node [x]. *)
Definition childOf (hm : gmap string Node) (x y : string) : Prop :=
  exists nd, hm !! x = Some nd /\ y ∈ n_Children nd.

(** A path of child edges from [x] to [z] all of whose nodes, both ends
    included, are of kind [OBJECT] or [INPUT_OBJECT]. *)
Inductive objPath (hm : gmap string Node) : string -> string -> Prop :=
| objPath_refl x : objectNode hm x -> objPath hm x x
| objPath_step x y z :
    objectNode hm x -> childOf hm x y -> objPath hm y z -> objPath hm x z.

(** Every child is a registered node (no dangling pointer). *)
Definition closedGraph (hm : gmap string Node) : Prop :=
  forall k nd c, hm !! k = Some nd -> c ∈ n_Children nd -> is_Some (hm !! c).

(** Two arenas with the same keys, kinds and child edges. *)
Definition shapeOf (nd : Node) : TypeKind * list string := (n_Kind nd, n_Children nd).

Definition sameShape (hm hm' : gmap string Node) : Prop :=
  forall k, shapeOf <$> hm !! k = shapeOf <$> hm' !! k.

(** A call of the traversal never shrinks the set [seen]. *)
Definition growing (call : string -> gset string -> result (bool * gset string))
  : Prop :=
  forall c s b s', call c s = Ok (b, s') -> s ⊆ s'.

(** The names of a list in order of first occurrence. *)
Fixpoint firstOccurrences (names : list string) : list string :=
  match names with
  | [] => []
  | x :: names' => x :: filter (fun y => y <> x) (firstOccurrences names')
  end.

(** The first node of a list that carries the name [k]. *)
Definition firstNamed (k : string) (nds : list Node) : option Node :=
  find (fun nd => String.eqb (n_Name nd) k) nds.

(** The answer of [n.hasCycleWith(c, seen)] on a fresh [seen]. *)
Definition cycleAnswer (fuel : nat) (hm : gmap string Node) (n c : string) : bool :=
  match hasCycleWith fuel hm n c ∅ with
  | Ok (b, _) => b
  | Abort _ => false
  end.

(** Flag the fields whose type is selected by [sel]. *)
Definition markedFields (sel : string -> bool) (fields : list FieldMeta)
  : list FieldMeta :=
  map (fun f => if sel (fm_Type f) then setCycle f else f) fields.

(** The types that [markCycles] flags in the node [n] with children [cs]. *)
Definition cyclicChild (fuel : nat) (hm : gmap string Node) (n : string)
           (cs : list string) (t : string) : bool :=
  existsb (fun c => String.eqb t c && cycleAnswer fuel hm n c) cs.

(** The node stored under [n] once [markCycles] has run on it. *)
Definition markNode (fuel : nat) (hm : gmap string Node) (n : string) (nd : Node)
  : Node :=
  setFields nd (markedFields (cyclicChild fuel hm n (n_Children nd)) (n_Fields nd)).

(** A field up to its cycle flag. *)
Definition sameField (f f' : FieldMeta) : Prop :=
  fm_Name f' = fm_Name f /\ fm_Type f' = fm_Type f /\
  fm_JSONTag f' = fm_JSONTag f /\ fm_isNullable f' = fm_isNullable f /\
  (fm_hasCycle f = true -> fm_hasCycle f' = true).

(** The mapper meets, on the path it follows through [ref], a [NULL]
    reference with a nil [OfType]. *)
Fixpoint wrapsNilNULL (ref : TypeRef) : bool :=
  match ref with
  | mkTypeRef kind _ None => kind =? NULL
  | mkTypeRef kind _ (Some r) =>
    if (kind =? NON_NULL) || (kind =? NULL) then wrapsNilNULL r
    else if (kind =? LIST) && negb (String.eqb (tr_Name r) EmptyString)
         then wrapsNilNULL r
         else false
  end.

(** The node stored under [k] when [markCycles] has run on the nodes of
    [done], in an arena that was [hm0] before the second pass of [Link]. *)
Definition staged (fuel : nat) (hm0 : gmap string Node) (done : gset string)
           (k : string) (nd : Node) : Node :=
  if decide (k ∈ done) then markNode fuel hm0 k nd else nd.

Definition markedGraph (fuel : nat) (hm0 : gmap string Node) (done : gset string)
  : gmap string Node :=
  map_imap (fun k nd => Some (staged fuel hm0 done k nd)) hm0.

(** The arena and the budget with which [Link] runs its second pass. *)
Definition linked (nds : list Node) : gmap string Node :=
  linkChildren (hashMap (collectAll nds)).

Definition budget (nds : list Node) : nat := S (size (hashMap (collectAll nds))).

(** ** Data of the repository's tests *)

(** The schema of the test case [schema with cycle]:
    Product -> ProductVariant -> InventoryItem -> ProductVariant. *)
Definition stringScalar (name : string) : TypeRef :=
  mkTypeRef SCALAR name (Some (mkTypeRef SCALAR "String" None)).

Definition cycleSchema : list SchemaType :=
  [ mkType OBJECT "Product"
      [ mkField "name" (stringScalar "String");
        mkField "variant"
          (mkTypeRef OBJECT "ProductVariant"
                     (Some (mkTypeRef OBJECT "ProductVariant" None))) ] [] [];
    mkType OBJECT "ProductVariant"
      [ mkField "id" (stringScalar "ID");
        mkField "barcode" (stringScalar "String");
        mkField "inventoryItem"
          (mkTypeRef NON_NULL EmptyString
                     (Some (mkTypeRef OBJECT "InventoryItem" None))) ] [] [];
    mkType OBJECT "InventoryItem"
      [ mkField "harmonizedSystemCode" (stringScalar "String");
        mkField "variant"
          (mkTypeRef NON_NULL EmptyString
                     (Some (mkTypeRef OBJECT "ProductVariant" None))) ] [] [] ].

Definition cycleGraph : Nodes :=
  match buildGraph cycleSchema with
  | Ok g => g
  | Abort _ => NewNodes
  end.

(** The schema of the test case [schema with enum type]. *)
Definition enumSchema : list SchemaType :=
  [ mkType OBJECT "Query"
      [ mkField "status"
          (mkTypeRef ENUM "Status" (Some (mkTypeRef ENUM "Status" None))) ] [] [];
    mkType ENUM "Status" [] []
      [ mkEnumValue "ACTIVE"; mkEnumValue "INACTIVE" ] ].

Definition enumGraph : Nodes :=
  match buildGraph enumSchema with
  | Ok g => g
  | Abort _ => NewNodes
  end.

(** An [OBJECT] node with one field per given type, not linked yet: the shape
    of the nodes that [TestNodes_Link] creates. *)
Definition createNode (name : string) (types : list string) : Node :=
  {| n_Name := name;
     n_Kind := OBJECT;
     n_Fields := map (fun t => mkFieldMeta t t t false false) types;
     n_Children := [] |}.

(** The five nodes of [TestNodes_Link] and the six questions it asks. *)
Definition testLinkNodes : list Node :=
  [ createNode "Node1" ["Node2"; "Node3"; "Node5"];
    createNode "Node2" ["Node4"];
    createNode "Node3" ["Node5"];
    createNode "Node4" [];
    createNode "Node5" ["Node1"] ].

Definition testLinkCases : list (string * string) :=
  [ ("Node1", "Node2"); ("Node1", "Node3"); ("Node1", "Node5");
    ("Node2", "Node4"); ("Node3", "Node5"); ("Node5", "Node1") ].

(** A struct field line with its tag, as the tests spell it. *)
Definition tagged (decl tag : string) : string :=
  TAB +:+ decl +:+ " `json:" +:+ DQ +:+ tag +:+ DQ +:+ "`" +:+ LF.

(** The output expected by the test case [schema with cycle]. *)
Definition cycleExpected : string :=
  "type Product struct {" +:+ LF
  +:+ tagged "Name string" "name"
  +:+ tagged "Variant *ProductVariant" "variant"
  +:+ "}" +:+ LF +:+ LF
  +:+ "type ProductVariant struct {" +:+ LF
  +:+ tagged "ID string" "id"
  +:+ tagged "Barcode string" "barcode"
  +:+ tagged "InventoryItem *InventoryItem" "inventoryItem"
  +:+ "}" +:+ LF +:+ LF
  +:+ "type InventoryItem struct {" +:+ LF
  +:+ tagged "HarmonizedSystemCode string" "harmonizedSystemCode"
  +:+ tagged "Variant *ProductVariant" "variant"
  +:+ "}" +:+ LF.

(** A graph without any cycle: A -> B, B -> C, B -> D. *)
Definition treeNodes : list Node :=
  [ createNode "A" ["B"]; createNode "B" ["C"; "D"];
    createNode "C" []; createNode "D" [] ].

Definition treeGraph : Nodes :=
  match Link (collectAll treeNodes) with
  | Ok g => g
  | Abort _ => NewNodes
  end.

(** A self-loop and a cycle through three nodes. *)
Definition loopNodes : list Node :=
  [ createNode "S" ["S"]; createNode "P" ["Q"];
    createNode "Q" ["R"]; createNode "R" ["P"] ].

(** ** util.go: the catalogue of field types *)

(** [IntrospectionSchema] (the member read by [GetIntrospectionTypes]). *)
Record IntrospectionSchema : Type := mkSchema { s_Types : list SchemaType }.

(** The closure [parseField] of [GetIntrospectionTypes]; [ofTypes] is the map
    it writes to.  [*fieldType.OfType] copies the wrapped reference. *)
Definition parseField (ofTypes : gmap string TypeRef) (fieldType : TypeRef)
  : gmap string TypeRef :=
  match tr_OfType fieldType with
  | Some inner =>
    if negb (String.eqb (tr_Name inner) EmptyString)
    then <[tr_Name inner := inner]> ofTypes
    else if negb (String.eqb (tr_Name fieldType) EmptyString)
         then <[tr_Name fieldType := inner]> ofTypes
         else ofTypes
  | None =>
    if negb (String.eqb (tr_Name fieldType) EmptyString)
    then <[tr_Name fieldType := fieldType]> ofTypes
    else ofTypes
  end.

(** The body of the loop over [schema.Types]: the fields, then the input
    fields. *)
Definition parseType (ofTypes : gmap string TypeRef) (gqlType : SchemaType)
  : gmap string TypeRef :=
  foldl (fun m f => parseField m (if_Type f))
        (foldl (fun m f => parseField m (f_Type f)) ofTypes (t_Fields gqlType))
        (t_InputFields gqlType).

(** [GetIntrospectionTypes]. *)
Definition GetIntrospectionTypes (schema : IntrospectionSchema)
  : gmap string TypeRef :=
  foldl parseType ∅ (s_Types schema).

(** The type references that [GetIntrospectionTypes] visits, in the order in
    which it visits them. *)
Definition fieldTypes (schema : IntrospectionSchema) : list TypeRef :=
  flat_map (fun t => map f_Type (t_Fields t) ++ map if_Type (t_InputFields t))
           (s_Types schema).

(** The key and the value that [parseField] writes for a reference, if it
    writes. *)
Definition entryOf (fieldType : TypeRef) : option (string * TypeRef) :=
  match tr_OfType fieldType with
  | Some inner =>
    if negb (String.eqb (tr_Name inner) EmptyString)
    then Some (tr_Name inner, inner)
    else if negb (String.eqb (tr_Name fieldType) EmptyString)
         then Some (tr_Name fieldType, inner)
         else None
  | None =>
    if negb (String.eqb (tr_Name fieldType) EmptyString)
    then Some (tr_Name fieldType, fieldType)
    else None
  end.

(** The value that [parseField] writes under [k] for a reference, if any. *)
Definition valueFor (k : string) (fieldType : TypeRef) : option TypeRef :=
  match entryOf fieldType with
  | Some kv => if String.eqb (fst kv) k then Some (snd kv) else None
  | None => None
  end.

(** The schema of [TestGetIntrospectionTypes] and the map it expects. *)
Definition catalogueSchema : IntrospectionSchema :=
  mkSchema
    [ mkType NULL "User"
        [ mkField "field1" (mkTypeRef SCALAR "ID" None);
          mkField "field2" (mkTypeRef NULL EmptyString
                                      (Some (mkTypeRef SCALAR "Int" None)));
          mkField "field3" (mkTypeRef LIST EmptyString
                                      (Some (mkTypeRef SCALAR "String" None)));
          mkField "field4" (mkTypeRef NON_NULL EmptyString
                                      (Some (mkTypeRef SCALAR "Boolean" None))) ]
        [ mkInputField "input1"
            (mkTypeRef SCALAR "Boolean" (Some (mkTypeRef SCALAR EmptyString None)));
          mkInputField "input2" (mkTypeRef SCALAR "Float" None) ]
        [];
      mkType NULL "CustomType"
        [ mkField "field5" (mkTypeRef OBJECT "Custom" None) ] [] [];
      mkType INTERFACE "InterfaceType"
        [ mkField "field6" (mkTypeRef SCALAR "String" None) ] [] [] ].

Definition catalogueExpected : gmap string TypeRef :=
  list_to_map
    [ ("ID", mkTypeRef SCALAR "ID" None);
      ("Int", mkTypeRef SCALAR "Int" None);
      ("String", mkTypeRef SCALAR "String" None);
      ("Boolean", mkTypeRef SCALAR EmptyString None);
      ("Float", mkTypeRef SCALAR "Float" None);
      ("Custom", mkTypeRef OBJECT "Custom" None) ].

(** ** Notions used in the further properties *)

(** [x] is registered and not of kind [OBJECT] or [INPUT_OBJECT]. *)
Definition plainNode (hm : gmap string Node) (x : string) : Prop :=
  exists nd, hm !! x = Some nd /\ isObjectKind (n_Kind nd) = false.

(** [quiet hm seen x]: what lies below [x] gives the cycle search nothing to
    report when it enters [x] with the names [seen] behind it.  Either [x] is
    not an object node, or it has no child, or it is not in [seen], all its
    children but the last are not object nodes, and the same holds of its last
    child once [x] is added to [seen].  So the object nodes below [x] form a
    chain that ends, in which each node keeps its one object child in last
    position, and which leads neither back into itself nor into [seen]. *)
Inductive quiet (hm : gmap string Node) : gset string -> string -> Prop :=
| quiet_plain seen x :
    plainNode hm x -> quiet hm seen x
| quiet_leaf seen x nd :
    hm !! x = Some nd -> isObjectKind (n_Kind nd) = true ->
    n_Children nd = [] -> quiet hm seen x
| quiet_chain seen x nd cs y :
    hm !! x = Some nd -> isObjectKind (n_Kind nd) = true ->
    n_Children nd = cs ++ [y] -> Forall (plainNode hm) cs ->
    x ∉ seen -> quiet hm ({[x]} ∪ seen) y -> quiet hm seen x.


(** The type references that [NewNode] hands to the type mapper. *)
Definition consultedTypes (schema : SchemaType) : list TypeRef :=
  let kind := t_Kind schema in
  if (kind =? OBJECT) || (kind =? INTERFACE) || (kind =? UNION)
  then map f_Type (t_Fields schema)
  else if kind =? INPUT_OBJECT then map if_Type (t_InputFields schema)
  else [].

(** The declared members that [NewNode] turns into fields, by name. *)
Definition memberNames (schema : SchemaType) : list string :=
  let kind := t_Kind schema in
  if (kind =? OBJECT) || (kind =? INTERFACE) || (kind =? UNION)
  then map f_Name (t_Fields schema)
  else if kind =? INPUT_OBJECT then map if_Name (t_InputFields schema)
  else if kind =? ENUM then map ev_Name (t_EnumValues schema)
  else [].

(** The kinds for which [ToGoTypes] has a case. *)
Definition supportedKind (k : TypeKind) : bool :=
  (k =? OBJECT) || (k =? INPUT_OBJECT) || (k =? UNION)
  || (k =? INTERFACE) || (k =? ENUM).

(** The name of a reference and of everything it wraps. *)
Fixpoint wrappedNames (ref : TypeRef) : list string :=
  match ref with
  | mkTypeRef _ name None => [name]
  | mkTypeRef _ name (Some r) => name :: wrappedNames r
  end.

(** [n] slice markers. *)
Fixpoint brackets (n : nat) : string :=
  match n with
  | O => EmptyString
  | S n' => "[]" +:+ brackets n'
  end.

Definition builtinTypes : list string :=
  [ "int"; "float64"; "string"; "bool"; "any" ].

(** The name that the emitter exports for a field of a node of kind [kind]:
    [toGoEnum] lower-cases it first. *)
Definition emittedName (ToLower : string -> string) (kind : TypeKind)
           (f : FieldMeta) : string :=
  if kind =? ENUM then ToLower (fm_Name f) else fm_Name f.

(** The nodes of the test case [schema with interface type]: an object with
    a field of an interface type. *)
Definition interfaceNodes : list Node :=
  [ mkNode "Query" OBJECT [mkFieldMeta "user" "User" "user" false false] [];
    mkNode "User" INTERFACE
           [mkFieldMeta "id" "string" "id" false true;
            mkFieldMeta "name" "string" "name" false true] [] ].

(** A string without the occurrences of one byte. *)
Fixpoint dropByte (b : ascii) (s : string) : string :=
  match s with
  | EmptyString => EmptyString
  | String c s' => if Ascii.eqb c b then dropByte b s' else String c (dropByte b s')
  end.

(** * Properties *)

(** ** The embedding on the repository's tests *)

(** The test case [schema with cycle] of [TestNodes_ToGoTypes]. *)
Example test_schema_with_cycle :
  (g ← buildGraph cycleSchema; ToGoTypes ToLowerASCII ToUpperASCII g)
  = Ok cycleExpected.
Proof. vm_compute. reflexivity. Qed.

(** [TestNodes_Link]: the answers to its six questions, asked on the linked
    graph, and the flags it checks afterwards. *)
Example test_Link_answers :
  (fun g => map (fun q => cycleAnswer 6 (hashMap g) (fst q) (snd q)) testLinkCases)
    <$> Link (collectAll testLinkNodes)
  = Ok [false; true; true; false; true; true].
Proof. vm_compute. reflexivity. Qed.

Example test_Link_flags :
  (fun g => map (fun k => map fm_hasCycle <$> (n_Fields <$> hashMap g !! k))
                (sortOrder g))
    <$> Link (collectAll testLinkNodes)
  = Ok [Some [false; true; true]; Some [false]; Some [true]; Some []; Some [true]].
Proof. vm_compute. reflexivity. Qed.

(** The examples of the identifier exporter given for [capitalize]. *)
Example test_capitalize :
  map (capitalize ToLowerASCII ToUpperASCII)
      [EmptyString; "id"; "structId"; "onlineStoreUrl"; "statusValid"; "all_valid"]
  = map Ok [EmptyString; "ID"; "StructID"; "OnlineStoreURL"; "StatusValid"; "AllValid"].
Proof. vm_compute. reflexivity. Qed.

(** ** The [result] monad *)

Lemma bind_Ok {A B} (m : result A) (f : A -> result B) (b : B) :
  m ≫= f = Ok b <-> exists a, m = Ok a /\ f a = Ok b.
Proof.
  destruct m as [a|e]; cbn; split.
  - intros H. exists a. split; [reflexivity|exact H].
  - intros (a' & [= <-] & H). exact H.
  - discriminate.
  - intros (a' & H & _). discriminate.
Qed.

Lemma mapR_Ok_Forall2 {A B} (f : A -> result B) l l' :
  mapR f l = Ok l' -> Forall2 (fun x y => f x = Ok y) l l'.
Proof.
  revert l'. induction l as [|x l IH]; intros l'; cbn.
  - intros [= <-]. constructor.
  - destruct (f x) as [y|e] eqn:Hx; cbn; [|discriminate].
    destruct (mapR f l) as [ys|e]; cbn; [|discriminate].
    intros [= <-]. constructor; [exact Hx|]. apply IH. reflexivity.
Qed.

Lemma mapR_Forall2_Ok {A B} (f : A -> result B) l l' :
  Forall2 (fun x y => f x = Ok y) l l' -> mapR f l = Ok l'.
Proof.
  induction 1 as [|x y l l' Hx _ IH]; cbn; [reflexivity|].
  rewrite Hx, IH. reflexivity.
Qed.

Lemma string_app_assoc (s1 s2 s3 : string) :
  (s1 +:+ s2) +:+ s3 = s1 +:+ (s2 +:+ s3).
Proof.
  induction s1 as [|c s1 IH]; [reflexivity|].
  change (String c ((s1 +:+ s2) +:+ s3) = String c (s1 +:+ (s2 +:+ s3))).
  rewrite IH. reflexivity.
Qed.

(** ** The type mapper *)

(** C2. The mapper is not total: on a [NULL] reference without a wrapped
    reference it dereferences the nil [OfType] and panics, whatever the name. *)
Theorem gqlTypeToGoType_NULL_nil_panics (name : string) :
  gqlTypeToGoType (mkTypeRef NULL name None) = Abort NilDereference.
Proof. reflexivity. Qed.

(** Induction on the depth of wrapping of a reference. *)
Lemma TypeRef_wrap_ind (P : TypeRef -> Prop) :
  (forall kind name, P (mkTypeRef kind name None)) ->
  (forall kind name r, P r -> P (mkTypeRef kind name (Some r))) ->
  forall ref, P ref.
Proof.
  intros Hnil Hsome. fix IH 1. intros [kind name [r|]].
  - apply Hsome, IH.
  - apply Hnil.
Qed.

(** The mapper has no other panic: it returns a string exactly when the path
    it follows meets no [NULL] reference with a nil [OfType]. *)
Lemma gqlTypeToGoType_Ok_iff (ref : TypeRef) :
  is_Ok (gqlTypeToGoType ref) <-> wrapsNilNULL ref = false.
Proof.
  assert (forall kind name ofType,
             (forall r, ofType = Some r ->
                        is_Ok (gqlTypeToGoType r) <-> wrapsNilNULL r = false) ->
             is_Ok (gqlTypeToGoType (mkTypeRef kind name ofType))
             <-> wrapsNilNULL (mkTypeRef kind name ofType) = false) as Hstep;
    [|induction ref as [kind name|kind name r IHr] using TypeRef_wrap_ind;
      apply Hstep; [discriminate|intros r' [= <-]; exact IHr]].
  intros kind name ofType IH.
  unfold is_Ok. cbn [gqlTypeToGoType wrapsNilNULL].
  destruct (kind =? SCALAR) eqn:Hs.
  { apply Z.eqb_eq in Hs. subst kind.
    split.
    - intros _. destruct ofType; reflexivity.
    - intros _. repeat (destruct (String.eqb _ _); [eexists; reflexivity|]).
      eexists; reflexivity. }
  destruct (kind =? OBJECT) eqn:Ho.
  { apply Z.eqb_eq in Ho. subst kind.
    split; [|intros _; eexists; reflexivity].
    intros _. destruct ofType; reflexivity. }
  destruct (kind =? NON_NULL) eqn:Hnn.
  { apply Z.eqb_eq in Hnn. subst kind.
    destruct ofType as [r|]; cbn.
    - apply IH. reflexivity.
    - split; [reflexivity|intros _; eexists; reflexivity]. }
  destruct (kind =? NULL) eqn:Hn.
  { apply Z.eqb_eq in Hn. subst kind.
    destruct ofType as [r|]; cbn.
    - apply IH. reflexivity.
    - split; [intros [a Ha]; discriminate|discriminate]. }
  destruct (kind =? LIST) eqn:Hl.
  { destruct ofType as [r|]; cbn.
    - destruct (negb (String.eqb (tr_Name r) EmptyString)).
      + rewrite <- (IH r eq_refl).
        destruct (gqlTypeToGoType r) as [s|e]; cbn.
        * split; intros _; eexists; reflexivity.
        * split; intros [a Ha]; discriminate.
      + split; [reflexivity|intros _; eexists; reflexivity].
    - split; [reflexivity|intros _; eexists; reflexivity]. }
  split.
  - intros _. destruct ofType; reflexivity.
  - intros _.
    repeat match goal with
           | |- context [if ?b then _ else _] => destruct b
           end; eexists; reflexivity.
Qed.

(** C3 (as stated, refuted). A [NON_NULL] reference named [User] with a nil
    [OfType] is mapped to its own name, not to the any type. *)
Lemma gqlTypeToGoType_NON_NULL_nil_not_any :
  gqlTypeToGoType (mkTypeRef NON_NULL "User" None) = Ok "User" /\
  gqlTypeToGoType (mkTypeRef NON_NULL "User" None) <> Ok "any".
Proof. split; [reflexivity|discriminate]. Qed.

(** C3 (amended). With a nil [OfType] neither modifier is an error: a [LIST]
    reference is mapped to the sequence of any, a [NON_NULL] reference to its
    own name, verbatim. *)
Theorem gqlTypeToGoType_nil_OfType (name : string) :
  gqlTypeToGoType (mkTypeRef LIST name None) = Ok "[]any" /\
  gqlTypeToGoType (mkTypeRef NON_NULL name None) = Ok name.
Proof. split; reflexivity. Qed.

(** C7. [NON_NULL] and [NULL] are transparent: a reference of either kind that
    wraps [ref] is mapped exactly as [ref] is, whatever its own name. *)
Theorem gqlTypeToGoType_transparent (name : string) (ref : TypeRef) :
  gqlTypeToGoType (mkTypeRef NON_NULL name (Some ref)) = gqlTypeToGoType ref /\
  gqlTypeToGoType (mkTypeRef NULL name (Some ref)) = gqlTypeToGoType ref.
Proof. split; reflexivity. Qed.

(** ** The schema model: decoding a [TypeKind] *)

Lemma kindLiterals_elem (lit : string) (kd : TypeKind) :
  (lit, kd) ∈ kindLiterals <->
  (lit, kd) = ("NULL", NULL) \/ (lit, kd) = ("NON_NULL", NON_NULL) \/
  (lit, kd) = ("SCALAR", SCALAR) \/ (lit, kd) = ("OBJECT", OBJECT) \/
  (lit, kd) = ("INTERFACE", INTERFACE) \/ (lit, kd) = ("UNION", UNION) \/
  (lit, kd) = ("ENUM", ENUM) \/ (lit, kd) = ("INPUT_OBJECT", INPUT_OBJECT) \/
  (lit, kd) = ("LIST", LIST).
Proof.
  unfold kindLiterals. rewrite !elem_of_cons, elem_of_nil. tauto.
Qed.

Section DecodeFacts.
Variable Unquote : string -> string.

Lemma UnmarshalJSON_literal (k : TypeKind) (kind lit : string) (kd : TypeKind) :
  (lit, kd) ∈ kindLiterals -> Unquote kind = lit ->
  UnmarshalJSON Unquote k kind = (kd, None).
Proof.
  intros Hin Hlit. unfold UnmarshalJSON. rewrite Hlit.
  apply kindLiterals_elem in Hin.
  repeat (destruct Hin as [Hin|Hin]; [injection Hin as -> ->; reflexivity|]).
  injection Hin as -> ->. reflexivity.
Qed.

Lemma UnmarshalJSON_success (k : TypeKind) (kind : string) :
  snd (UnmarshalJSON Unquote k kind) = None ->
  exists kd, (Unquote kind, kd) ∈ kindLiterals.
Proof.
  unfold UnmarshalJSON.
  repeat match goal with
         | |- context [String.eqb (Unquote kind) ?lit] =>
           destruct (String.eqb_spec (Unquote kind) lit) as [->|?];
             [intros _; eexists; apply kindLiterals_elem; tauto|]
         end.
  discriminate.
Qed.

(** C9. Decoding succeeds exactly when the unquoted input is one of the nine
    kind literals, and then stores the kind of that literal; on every other
    input it leaves [*k] as it was and returns the error
    [unknown type kind: <input>]. *)
Theorem UnmarshalJSON_exact (k : TypeKind) (kind : string) :
  (forall lit kd, (lit, kd) ∈ kindLiterals -> Unquote kind = lit ->
                  UnmarshalJSON Unquote k kind = (kd, None)) /\
  (snd (UnmarshalJSON Unquote k kind) = None <->
   Unquote kind ∈ map fst kindLiterals) /\
  (Unquote kind ∉ map fst kindLiterals ->
   UnmarshalJSON Unquote k kind = (k, Some ("unknown type kind: " +:+ kind))).
Proof.
  split; [|split].
  - intros lit kd. apply UnmarshalJSON_literal.
  - split.
    + intros H. apply UnmarshalJSON_success in H as [kd Hkd].
      apply list_elem_of_fmap. exists (Unquote kind, kd). split; [reflexivity|exact Hkd].
    + intros H. apply list_elem_of_fmap in H as ([lit kd] & Hlit & Hin). cbn in Hlit.
      rewrite (UnmarshalJSON_literal k kind lit kd Hin Hlit). reflexivity.
  - intros Hnot. unfold UnmarshalJSON.
    repeat match goal with
           | |- context [String.eqb (Unquote kind) ?lit] =>
             destruct (String.eqb_spec (Unquote kind) lit) as [Heq|?];
               [exfalso; apply Hnot; rewrite Heq; cbn;
                rewrite !elem_of_cons; tauto|]
           end.
    reflexivity.
Qed.
End DecodeFacts.

(** C9 at two inputs: the JSON string ["ENUM"] decodes to [ENUM], and the JSON
    number [3] is refused and leaves the kind as it was. *)
Lemma UnmarshalJSON_exact_witness :
  UnmarshalJSON UnquotePlain NULL (DQ +:+ "ENUM" +:+ DQ) = (ENUM, None) /\
  UnmarshalJSON UnquotePlain SCALAR "3" = (SCALAR, Some "unknown type kind: 3").
Proof.
  split.
  - apply (proj1 (UnmarshalJSON_exact UnquotePlain NULL (DQ +:+ "ENUM" +:+ DQ))
                 "ENUM" ENUM).
    + apply kindLiterals_elem. tauto.
    + reflexivity.
  - apply (proj2 (proj2 (UnmarshalJSON_exact UnquotePlain SCALAR "3"))).
    cbn. rewrite !elem_of_cons, elem_of_nil.
    intros H. repeat (destruct H as [H|H]; [discriminate H|]). exact H.
Defined.

(** ** The node builder *)

Lemma newFieldMeta_Ok (name : string) (ty : TypeRef) (f : FieldMeta) :
  newFieldMeta name ty = Ok f ->
  fm_Name f = name /\ fm_JSONTag f = name /\ fm_hasCycle f = false /\
  gqlTypeToGoType ty = Ok (fm_Type f) /\
  fm_isNullable f = (tr_Kind ty =? NULL) || isNil (tr_OfType ty).
Proof.
  unfold newFieldMeta. intros H. apply bind_Ok in H as (goType & Hty & [= <-]).
  cbn. auto.
Qed.

Lemma mapR_newFieldMeta {A} (name : A -> string) (ty : A -> TypeRef)
      (l : list A) (fields : list FieldMeta) :
  mapR (fun x => newFieldMeta (name x) (ty x)) l = Ok fields ->
  map fm_Name fields = map name l /\ map fm_JSONTag fields = map name l /\
  Forall (fun f => fm_hasCycle f = false) fields.
Proof.
  intros H. apply mapR_Ok_Forall2 in H.
  induction H as [|x f l fields Hx _ IH]; [repeat split; constructor|].
  apply newFieldMeta_Ok in Hx as (Hn & Ht & Hc & _).
  destruct IH as (IH1 & IH2 & IH3). cbn.
  rewrite Hn, Ht, IH1, IH2. repeat split. constructor; assumption.
Qed.

(** What [NewNode] returns: the declared name and kind, no child, no flagged
    field, tags equal to the field names, and for an enum one field per value,
    each typed by the enum itself. *)
Lemma NewNode_Ok (schema : SchemaType) (nd : Node) :
  NewNode schema = Ok nd ->
  n_Name nd = t_Name schema /\ n_Kind nd = t_Kind schema /\ freshNode nd /\
  map fm_JSONTag (n_Fields nd) = map fm_Name (n_Fields nd) /\
  (n_Kind nd = ENUM ->
   Forall (fun f => fm_Type f = n_Name nd) (n_Fields nd)).
Proof.
  unfold NewNode. intros H. apply bind_Ok in H as (fields & Hf & [= <-]).
  unfold freshNode. cbn.
  destruct ((t_Kind schema =? OBJECT) || (t_Kind schema =? INTERFACE)
            || (t_Kind schema =? UNION)) eqn:Hobj.
  { apply mapR_newFieldMeta in Hf as (Hn & Ht & Hc).
    repeat split; [exact Hc|congruence|].
    intros He. rewrite He in Hobj. discriminate. }
  destruct (t_Kind schema =? INPUT_OBJECT) eqn:Hin.
  { apply mapR_newFieldMeta in Hf as (Hn & Ht & Hc).
    repeat split; [exact Hc|congruence|].
    intros He. rewrite He in Hin. discriminate. }
  destruct (t_Kind schema =? ENUM) eqn:Hen.
  { injection Hf as <-. repeat split.
    - apply Forall_fmap, Forall_true. reflexivity.
    - rewrite <- !list_fmap_compose. reflexivity.
    - intros _. apply Forall_fmap, Forall_true. reflexivity. }
  injection Hf as <-. repeat split; constructor.
Qed.

Lemma mapR_NewNode_Ok (types : list SchemaType) (nds : list Node) :
  mapR NewNode types = Ok nds ->
  Forall (fun nd => freshNode nd /\
                    (n_Kind nd = ENUM ->
                     Forall (fun f => fm_Type f = n_Name nd) (n_Fields nd))) nds.
Proof.
  intros H. apply mapR_Ok_Forall2 in H.
  induction H as [|t nd types nds Ht _ IH]; constructor; [|exact IH].
  apply NewNode_Ok in Ht. tauto.
Qed.

(** ** The code emitter *)

Section EmitterFacts.
Variables ToLower ToUpper : string -> string.

(** C6. The line of a struct field is chosen by precedence: a pointer without
    [omitempty] when the field is flagged [hasCycle]; otherwise a pointer with
    [omitempty] when it is nullable; otherwise the plain value.  In all three
    the tag is the field's [JSONTag], which [NewNode] sets to the declared
    field name.  [toGoStruct] emits these lines, in field order, for the nodes
    of kind [OBJECT], [INPUT_OBJECT] and [UNION]. *)
Theorem toGoStruct_field_precedence :
  (forall f : FieldMeta,
      structFieldLine ToLower ToUpper f =
      name ← capitalize ToLower ToUpper (fm_Name f);
      Ok (if fm_hasCycle f then
            TAB +:+ name +:+ " *" +:+ fm_Type f
                +:+ " `json:" +:+ DQ +:+ fm_JSONTag f +:+ DQ +:+ "`" +:+ LF
          else if fm_isNullable f then
            TAB +:+ name +:+ " *" +:+ fm_Type f
                +:+ " `json:" +:+ DQ +:+ fm_JSONTag f +:+ ",omitempty" +:+ DQ +:+ "`" +:+ LF
          else
            TAB +:+ name +:+ " " +:+ fm_Type f
                +:+ " `json:" +:+ DQ +:+ fm_JSONTag f +:+ DQ +:+ "`" +:+ LF)) /\
  (forall nd : Node,
      n_Kind nd = OBJECT \/ n_Kind nd = INPUT_OBJECT \/ n_Kind nd = UNION ->
      emitNode ToLower ToUpper nd =
      lines ← mapR (structFieldLine ToLower ToUpper) (n_Fields nd);
      Ok ("type " +:+ n_Name nd +:+ " struct {" +:+ LF
          +:+ Join lines EmptyString +:+ "}" +:+ LF)) /\
  (forall (schema : SchemaType) (nd : Node),
      NewNode schema = Ok nd ->
      map fm_JSONTag (n_Fields nd) = map fm_Name (n_Fields nd)).
Proof.
  split; [|split].
  - intros f. unfold structFieldLine, structFieldTmpl.
    destruct (capitalize ToLower ToUpper (fm_Name f)) as [name|e]; [|reflexivity].
    cbn [mbind result_bind].
    destruct (fm_hasCycle f), (fm_isNullable f); reflexivity.
  - intros nd Hk. unfold emitNode, toGoStruct.
    assert ((n_Kind nd =? OBJECT) || (n_Kind nd =? INPUT_OBJECT)
            || (n_Kind nd =? UNION) = true) as ->.
    { destruct Hk as [->|[->| ->]]; reflexivity. }
    destruct (mapR (structFieldLine ToLower ToUpper) (n_Fields nd)) as [lines|e];
      [|reflexivity].
    cbn [mbind result_bind]. f_equal.
    change (Sprintf ("type %s struct {" +:+ LF) [n_Name nd])
      with ("type " +:+ (n_Name nd +:+ (" struct {" +:+ LF))).
    rewrite !string_app_assoc. reflexivity.
  - intros schema nd H. apply NewNode_Ok in H. tauto.
Qed.
End EmitterFacts.

(** C6 on the node built for a type [Product] with one nullable field
    [variant]. *)
Lemma toGoStruct_field_precedence_witness :
  NewNode (mkType OBJECT "Product"
             [mkField "variant" (mkTypeRef OBJECT "ProductVariant" None)] [] [])
  = Ok (mkNode "Product" OBJECT
               [mkFieldMeta "variant" "ProductVariant" "variant" false true] []) /\
  map fm_JSONTag [mkFieldMeta "variant" "ProductVariant" "variant" false true]
  = map fm_Name [mkFieldMeta "variant" "ProductVariant" "variant" false true] /\
  emitNode ToLowerASCII ToUpperASCII
           (mkNode "Product" OBJECT
                   [mkFieldMeta "variant" "ProductVariant" "variant" false true] [])
  = Ok ("type Product struct {" +:+ LF
        +:+ TAB +:+ "Variant *ProductVariant `json:" +:+ DQ
        +:+ "variant,omitempty" +:+ DQ +:+ "`" +:+ LF
        +:+ "}" +:+ LF).
Proof.
  destruct (toGoStruct_field_precedence ToLowerASCII ToUpperASCII)
    as (_ & Hemit & Htag).
  split; [reflexivity|]. split.
  - apply (Htag (mkType OBJECT "Product"
                   [mkField "variant" (mkTypeRef OBJECT "ProductVariant" None)] [] [])
                (mkNode "Product" OBJECT
                   [mkFieldMeta "variant" "ProductVariant" "variant" false true] [])).
    reflexivity.
  - rewrite Hemit by (left; reflexivity). vm_compute. reflexivity.
Defined.

(** ** The node graph: Collect *)

Lemma Collect_registered (n : Nodes) (nd : Node) :
  is_Some (hashMap n !! n_Name nd) -> Collect n nd = n.
Proof. intros [x Hx]. unfold Collect. rewrite Hx. reflexivity. Qed.

Lemma filter_firstOccurrences_cons (P : string -> Prop) `{!forall y, Decision (P y)}
      (x : string) (l : list string) :
  filter (fun y => P y /\ y <> x) l = filter P (filter (fun y => y <> x) l).
Proof.
  induction l as [|y l IH]; [reflexivity|].
  rewrite !filter_cons.
  destruct (decide (y <> x)) as [Hne|Heq].
  - rewrite filter_cons. destruct (decide (P y)).
    + rewrite decide_True by tauto. f_equal. exact IH.
    + rewrite decide_False by tauto. exact IH.
  - rewrite decide_False by tauto. exact IH.
Qed.

(** The order after a run of [Collect] calls: the order before, followed by
    the new names in order of first occurrence. *)
Lemma foldl_Collect_sortOrder (nds : list Node) (n : Nodes) :
  sortOrder (foldl Collect n nds)
  = sortOrder n ++ filter (fun y => hashMap n !! y = None)
                          (firstOccurrences (map n_Name nds)).
Proof.
  revert n. induction nds as [|nd nds IH]; intros n.
  - cbn. rewrite app_nil_r. reflexivity.
  - cbn [foldl map firstOccurrences]. rewrite IH. unfold Collect.
    destruct (hashMap n !! n_Name nd) as [x|] eqn:Hx.
    + f_equal. rewrite filter_cons, decide_False by congruence.
      rewrite <- filter_firstOccurrences_cons.
      apply list_filter_iff. intros y. split; [|tauto].
      intros Hy. split; [exact Hy|congruence].
    + cbn [sortOrder hashMap]. rewrite <- app_assoc. f_equal.
      rewrite filter_cons, decide_True by exact Hx. cbn. f_equal.
      rewrite <- filter_firstOccurrences_cons.
      apply list_filter_iff. intros y. rewrite lookup_insert_None.
      split; intros [H1 H2]; split; congruence.
Qed.

(** The map after a run of [Collect] calls: first registration wins. *)
Lemma foldl_Collect_hashMap (nds : list Node) (n : Nodes) (k : string) :
  hashMap (foldl Collect n nds) !! k
  = match hashMap n !! k with
    | Some nd => Some nd
    | None => firstNamed k nds
    end.
Proof.
  revert n. induction nds as [|nd nds IH]; intros n.
  - cbn. destruct (hashMap n !! k); reflexivity.
  - cbn [foldl]. rewrite IH. unfold Collect, firstNamed. cbn [find].
    destruct (hashMap n !! n_Name nd) as [x|] eqn:Hx.
    + destruct (hashMap n !! k) eqn:Hk; [reflexivity|].
      destruct (String.eqb_spec (n_Name nd) k) as [Heq|Hne]; [congruence|reflexivity].
    + cbn [hashMap].
      destruct (String.eqb_spec (n_Name nd) k) as [Heq|Hne].
      * subst k. rewrite lookup_insert_eq, Hx. reflexivity.
      * rewrite lookup_insert_ne by exact Hne. reflexivity.
Qed.

Lemma collectAll_sortOrder (nds : list Node) :
  sortOrder (collectAll nds) = firstOccurrences (map n_Name nds).
Proof.
  unfold collectAll. rewrite foldl_Collect_sortOrder. cbn.
  induction (firstOccurrences (map n_Name nds)) as [|y l IH]; [reflexivity|].
  rewrite filter_cons, decide_True by apply lookup_empty. f_equal. exact IH.
Qed.

Lemma collectAll_hashMap (nds : list Node) (k : string) :
  hashMap (collectAll nds) !! k = firstNamed k nds.
Proof. unfold collectAll. rewrite foldl_Collect_hashMap. reflexivity. Qed.

Lemma firstNamed_Some (k : string) (nds : list Node) (nd : Node) :
  firstNamed k nds = Some nd -> nd ∈ nds /\ n_Name nd = k.
Proof.
  unfold firstNamed. intros H. apply find_some in H as [Hin Heq].
  split; [apply list_elem_of_In; exact Hin|apply String.eqb_eq; exact Heq].
Qed.

Lemma elem_of_firstOccurrences (k : string) (names : list string) :
  k ∈ firstOccurrences names <-> k ∈ names.
Proof.
  induction names as [|x names IH]; [reflexivity|].
  cbn [firstOccurrences]. rewrite !elem_of_cons, list_elem_of_filter, IH.
  destruct (decide (k = x)); tauto.
Qed.

Lemma NoDup_firstOccurrences (names : list string) :
  NoDup (firstOccurrences names).
Proof.
  induction names as [|x names IH]; [constructor|].
  cbn [firstOccurrences]. constructor.
  - rewrite list_elem_of_filter. tauto.
  - apply NoDup_filter. exact IH.
Qed.

Lemma firstNamed_is_Some (k : string) (nds : list Node) :
  is_Some (firstNamed k nds) <-> k ∈ map n_Name nds.
Proof.
  unfold firstNamed. induction nds as [|nd nds IH]; cbn [find map].
  - split; [intros [x Hx]; discriminate|intros H; inversion H].
  - rewrite elem_of_cons.
    destruct (String.eqb_spec (n_Name nd) k) as [Heq|Hne].
    + split; [intros _; left; congruence|intros _; eexists; reflexivity].
    + rewrite IH. split; [tauto|]. intros [Heq|Hin]; [congruence|exact Hin].
Qed.

(** The registered names are exactly the names of the order. *)
Lemma collectAll_order_registered (nds : list Node) (k : string) :
  k ∈ sortOrder (collectAll nds) <-> is_Some (hashMap (collectAll nds) !! k).
Proof.
  rewrite collectAll_sortOrder, collectAll_hashMap, elem_of_firstOccurrences.
  symmetry. apply firstNamed_is_Some.
Qed.

(** ** Cycle detection: the traversal [hasCycleWith] *)

Lemma cycleLoop_ext call call' (cs : list string) (seen : gset string) :
  (forall c s, call c s = call' c s) ->
  cycleLoop call cs seen = cycleLoop call' cs seen.
Proof.
  intros Hext. revert seen. induction cs as [|c cs IH]; intros seen; cbn.
  - reflexivity.
  - rewrite Hext. destruct (call' c seen) as [[[] s]|e]; auto.
Qed.

(** The traversal reads the kinds and the child edges only. *)
Lemma hasCycleWith_shape (fuel : nat) (hm hm' : gmap string Node)
      (n n1 : string) (seen : gset string) :
  sameShape hm hm' ->
  hasCycleWith fuel hm n n1 seen = hasCycleWith fuel hm' n n1 seen.
Proof.
  intros Hsh. revert n n1 seen.
  induction fuel as [|fuel IH]; intros n n1 seen; cbn; [reflexivity|].
  destruct (decide (n ∈ seen)); [reflexivity|].
  specialize (Hsh n1).
  destruct (hm !! n1) as [nd|], (hm' !! n1) as [nd'|]; cbn in Hsh;
    try discriminate; [|reflexivity].
  injection Hsh as Hk Hc. rewrite Hk, Hc.
  destruct (negb (n_Kind nd' =? OBJECT) && negb (n_Kind nd' =? INPUT_OBJECT));
    [reflexivity|].
  apply cycleLoop_ext. intros c s. apply IH.
Qed.

Lemma cycleLoop_growing call (cs : list string) (seen : gset string) b s' :
  growing call -> cycleLoop call cs seen = Ok (b, s') -> seen ⊆ s'.
Proof.
  intros Hg. revert seen. induction cs as [|c cs IH]; intros seen; cbn.
  - intros [= _ <-]. reflexivity.
  - destruct (call c seen) as [[[] s]|e] eqn:Hc; [| |discriminate].
    + intros [= _ <-]. eapply Hg, Hc.
    + intros H. apply IH in H. apply Hg in Hc. set_solver.
Qed.

(** [seen] only grows. *)
Lemma hasCycleWith_growing (fuel : nat) (hm : gmap string Node) (n1 : string) :
  growing (fun c s => hasCycleWith fuel hm n1 c s).
Proof.
  revert n1. induction fuel as [|fuel IH]; intros n n1 seen b s'; cbn;
    [discriminate|].
  destruct (decide (n ∈ seen)); [intros [= _ <-]; reflexivity|].
  destruct (hm !! n1) as [nd|]; [|discriminate].
  destruct (negb (n_Kind nd =? OBJECT) && negb (n_Kind nd =? INPUT_OBJECT));
    [intros [= _ <-]; reflexivity|].
  intros H. apply cycleLoop_growing in H; [set_solver|apply IH].
Qed.

(** When the loop over the children answers [false], every child was asked
    and answered [false], on a set at least as large as the initial one. *)
Lemma cycleLoop_false call (cs : list string) (seen s' : gset string) (c : string) :
  growing call -> cycleLoop call cs seen = Ok (false, s') -> c ∈ cs ->
  exists si sj, seen ⊆ si /\ call c si = Ok (false, sj).
Proof.
  intros Hg. revert seen. induction cs as [|c0 cs IH]; intros seen; cbn.
  - intros _ H. inversion H.
  - destruct (call c0 seen) as [[[] s]|e] eqn:Hc; [discriminate| |discriminate].
    intros H Hin. apply elem_of_cons in Hin as [->|Hin].
    + exists seen, s. split; [reflexivity|exact Hc].
    + destruct (IH _ H Hin) as (si & sj & Hsub & Hcall).
      exists si, sj. split; [|exact Hcall]. apply Hg in Hc. set_solver.
Qed.

Lemma cycleLoop_true call (cs : list string) (seen s' : gset string) :
  cycleLoop call cs seen = Ok (true, s') -> exists c, c ∈ cs.
Proof.
  destruct cs as [|c cs]; cbn; [discriminate|].
  intros _. exists c. constructor.
Qed.

Lemma isObjectKind_test (k : TypeKind) :
  negb (k =? OBJECT) && negb (k =? INPUT_OBJECT) = negb (isObjectKind k).
Proof. unfold isObjectKind. rewrite negb_involutive. reflexivity. Qed.

(** A [false] answer about an object node: the receiver was not seen and the
    loop over the node's children answered [false]. *)
Lemma hasCycleWith_false (fuel : nat) (hm : gmap string Node) (n n1 : string)
      (seen s' : gset string) (nd1 : Node) :
  hasCycleWith fuel hm n n1 seen = Ok (false, s') ->
  hm !! n1 = Some nd1 -> isObjectKind (n_Kind nd1) = true ->
  exists fuel', (n ∉ seen) /\
    cycleLoop (hasCycleWith fuel' hm n1) (n_Children nd1) ({[n]} ∪ seen)
    = Ok (false, s').
Proof.
  destruct fuel as [|fuel]; cbn; [discriminate|].
  destruct (decide (n ∈ seen)); [discriminate|].
  intros H Hnd Hobj. rewrite Hnd, isObjectKind_test, Hobj in H. cbn in H.
  exists fuel. split; assumption.
Qed.

(** A [true] answer on an empty [seen]: the child is an object node with at
    least one child of its own. *)
Lemma hasCycleWith_true_empty (fuel : nat) (hm : gmap string Node) (n c : string)
      (s' : gset string) :
  hasCycleWith fuel hm n c ∅ = Ok (true, s') ->
  objectNode hm c /\ exists y, childOf hm c y.
Proof.
  destruct fuel as [|fuel]; cbn; [discriminate|].
  destruct (decide (n ∈ ∅)) as [Hin|_]; [set_solver|].
  destruct (hm !! c) as [nd|] eqn:Hnd; [|discriminate].
  rewrite isObjectKind_test.
  destruct (isObjectKind (n_Kind nd)) eqn:Hobj; cbn; [|discriminate].
  intros H. apply cycleLoop_true in H as [y Hy].
  split; [exists nd; auto|exists y, nd; auto].
Qed.

(** A [false] answer for the edge from [n] to [n1]: no node with a child that
    [n1] reaches through object nodes was seen before, or is [n]. *)
Lemma hasCycleWith_false_unseen (hm : gmap string Node) (n1 x y : string) :
  objPath hm n1 x -> childOf hm x y ->
  forall fuel n seen s',
    hasCycleWith fuel hm n n1 seen = Ok (false, s') -> (x ∉ seen) /\ x <> n.
Proof.
  intros Hpath Hchild.
  induction Hpath as [x (nd & Hnd & Hobj)|x y' z (nd & Hnd & Hobj) (nd' & Hnd' & Hy') _ IH];
    intros fuel n seen s' H.
  - destruct Hchild as (nd' & Hnd' & Hy). replace nd' with nd in Hy by congruence.
    destruct (hasCycleWith_false _ _ _ _ _ _ _ H Hnd Hobj) as (fuel' & _ & Hloop).
    destruct (cycleLoop_false _ _ _ _ _ (hasCycleWith_growing fuel' hm x) Hloop Hy)
      as (si & sj & Hsub & Hcall).
    assert (x ∉ si) as Hx.
    { destruct fuel' as [|f]; cbn in Hcall; [discriminate|].
      destruct (decide (x ∈ si)); [discriminate|assumption]. }
    set_solver.
  - replace nd' with nd in Hy' by congruence.
    destruct (hasCycleWith_false _ _ _ _ _ _ _ H Hnd Hobj) as (fuel' & _ & Hloop).
    destruct (cycleLoop_false _ _ _ _ _ (hasCycleWith_growing fuel' hm x) Hloop Hy')
      as (si & sj & Hsub & Hcall).
    destruct (IH Hchild _ _ _ _ Hcall) as [Hz _]. clear IH.
    set_solver.
Qed.

(** A [false] answer for the edge to [n1]: every edge leaving a node that [n1]
    reaches through object nodes was asked, and answered [false]. *)
Lemma hasCycleWith_false_asked (hm : gmap string Node) (n1 x y : string) :
  objPath hm n1 x -> childOf hm x y ->
  forall fuel n seen s',
    hasCycleWith fuel hm n n1 seen = Ok (false, s') ->
    exists fuel' si sj, hasCycleWith fuel' hm x y si = Ok (false, sj).
Proof.
  intros Hpath Hchild.
  induction Hpath as [x (nd & Hnd & Hobj)|x y' z (nd & Hnd & Hobj) (nd' & Hnd' & Hy') _ IH];
    intros fuel n seen s' H.
  - destruct Hchild as (nd' & Hnd' & Hy). replace nd' with nd in Hy by congruence.
    destruct (hasCycleWith_false _ _ _ _ _ _ _ H Hnd Hobj) as (fuel' & _ & Hloop).
    destruct (cycleLoop_false _ _ _ _ _ (hasCycleWith_growing fuel' hm x) Hloop Hy)
      as (si & sj & _ & Hcall).
    eauto.
  - replace nd' with nd in Hy' by congruence.
    destruct (hasCycleWith_false _ _ _ _ _ _ _ H Hnd Hobj) as (fuel' & _ & Hloop).
    destruct (cycleLoop_false _ _ _ _ _ (hasCycleWith_growing fuel' hm x) Hloop Hy')
      as (si & sj & _ & Hcall).
    eapply IH; eauto.
Qed.

(** Completeness of the traversal: when the child reaches, through object
    nodes, a node that lies on a cycle of object nodes, the answer is not
    [false]. *)
Lemma hasCycleWith_reaches_cycle (fuel : nat) (hm : gmap string Node)
      (n c x y : string) (seen s' : gset string) :
  objPath hm c x -> childOf hm x y -> objPath hm y x ->
  hasCycleWith fuel hm n c seen <> Ok (false, s').
Proof.
  intros Hcx Hxy Hyx H.
  destruct (hasCycleWith_false_asked hm c x y Hcx Hxy _ _ _ _ H)
    as (fuel' & si & sj & Hcall).
  destruct (hasCycleWith_false_unseen hm y x y Hyx Hxy _ _ _ _ Hcall) as [_ Hne].
  congruence.
Qed.

(** ** Cycle detection: termination *)

Lemma cycleLoop_total call (cs : list string) (seen : gset string) :
  growing call ->
  (forall c s, c ∈ cs -> seen ⊆ s -> is_Ok (call c s)) ->
  is_Ok (cycleLoop call cs seen).
Proof.
  intros Hg. revert seen. induction cs as [|c cs IH]; intros seen Hok; cbn.
  - eexists; reflexivity.
  - destruct (Hok c seen) as [[b s] Hc]; [constructor|reflexivity|].
    rewrite Hc. destruct b; [eexists; reflexivity|].
    apply IH. intros c' s' Hin Hsub. apply Hok; [constructor; exact Hin|].
    apply Hg in Hc. set_solver.
Qed.

(** On a graph without dangling child the traversal returns as soon as its
    budget exceeds the number of registered names not yet in [seen]: every
    level of the recursion adds one of them. *)
Lemma hasCycleWith_total (hm : gmap string Node) :
  closedGraph hm ->
  forall fuel n n1 seen,
    is_Some (hm !! n) -> is_Some (hm !! n1) ->
    (size (dom hm ∖ seen) < fuel)%nat ->
    is_Ok (hasCycleWith fuel hm n n1 seen).
Proof.
  intros Hclosed. induction fuel as [|fuel IH]; intros n n1 seen Hn Hn1 Hsize;
    [lia|].
  cbn. destruct (decide (n ∈ seen)) as [|Hnot]; [eexists; reflexivity|].
  destruct Hn1 as [nd1 Hnd1]. rewrite Hnd1.
  destruct (negb (n_Kind nd1 =? OBJECT) && negb (n_Kind nd1 =? INPUT_OBJECT));
    [eexists; reflexivity|].
  apply cycleLoop_total; [apply hasCycleWith_growing|].
  intros c s Hc Hsub. apply IH.
  - eexists; exact Hnd1.
  - eapply Hclosed; eauto.
  - apply elem_of_dom in Hn.
    assert (dom hm ∖ s ⊂ dom hm ∖ seen) as Hlt by set_solver.
    apply subset_size in Hlt. lia.
Qed.

(** ** Cycle detection: marking *)

Lemma setFields_id (nd : Node) : setFields nd (n_Fields nd) = nd.
Proof. destruct nd; reflexivity. Qed.

Lemma markedFields_ext (sel sel' : string -> bool) (fields : list FieldMeta) :
  (forall t, sel t = sel' t) -> markedFields sel fields = markedFields sel' fields.
Proof.
  intros Hext. unfold markedFields. apply map_ext. intros f. rewrite Hext. reflexivity.
Qed.

Lemma markedFields_none (sel : string -> bool) (fields : list FieldMeta) :
  (forall t, sel t = false) -> markedFields sel fields = fields.
Proof.
  intros Hsel. unfold markedFields. rewrite <- (map_id fields) at 2.
  apply map_ext. intros f. rewrite Hsel. reflexivity.
Qed.

Lemma markedFields_compose (sel1 sel2 : string -> bool) (fields : list FieldMeta) :
  markedFields sel2 (markedFields sel1 fields)
  = markedFields (fun t => sel1 t || sel2 t) fields.
Proof.
  unfold markedFields. rewrite map_map. apply map_ext. intros f.
  destruct (sel1 (fm_Type f)); cbn; destruct (sel2 (fm_Type f)); reflexivity.
Qed.

Lemma sameShape_insert (hm : gmap string Node) (n : string) (nd nd' : Node) :
  hm !! n = Some nd -> shapeOf nd' = shapeOf nd -> sameShape hm (<[n := nd']> hm).
Proof.
  intros Hnd Hsh k. destruct (decide (n = k)) as [<-|Hne].
  - rewrite lookup_insert_eq, Hnd. cbn. congruence.
  - rewrite lookup_insert_ne by exact Hne. reflexivity.
Qed.

Lemma cyclicChild_shape (fuel : nat) (hm hm' : gmap string Node) (n : string)
      (cs : list string) (t : string) :
  sameShape hm hm' -> cyclicChild fuel hm n cs t = cyclicChild fuel hm' n cs t.
Proof.
  intros Hsh. unfold cyclicChild, cycleAnswer.
  induction cs as [|c cs IH]; cbn; [reflexivity|].
  rewrite IH, (hasCycleWith_shape fuel hm hm') by exact Hsh. reflexivity.
Qed.

(** The outer loop of [markCycles], when every question it asks is answered:
    it flags the fields whose type is a child with a [true] answer. *)
Lemma markLoop_run (fuel : nat) (n : string) (cs : list string) :
  forall (hm : gmap string Node) (nd : Node),
    hm !! n = Some nd ->
    (forall c, c ∈ cs -> is_Ok (hasCycleWith fuel hm n c ∅)) ->
    markLoop fuel n cs hm
    = Ok (<[n := setFields nd (markedFields (cyclicChild fuel hm n cs) (n_Fields nd))]> hm).
Proof.
  induction cs as [|c cs IH]; intros hm nd Hnd Hok.
  - cbn [markLoop]. f_equal. symmetry. apply insert_id.
    rewrite markedFields_none by reflexivity. rewrite setFields_id. exact Hnd.
  - cbn [markLoop].
    destruct (Hok c) as [[b s] Hc]; [constructor|]. rewrite Hc.
    assert (cycleAnswer fuel hm n c = b) as Hans.
    { unfold cycleAnswer. rewrite Hc. reflexivity. }
    destruct b.
    + rewrite Hnd.
      set (nd1 := setFields nd (markFields c (n_Fields nd))).
      assert (sameShape hm (<[n := nd1]> hm)) as Hsh.
      { eapply sameShape_insert; [exact Hnd|reflexivity]. }
      rewrite (IH (<[n := nd1]> hm) nd1).
      * f_equal. rewrite insert_insert_eq. f_equal.
        unfold nd1, setFields. cbn [n_Name n_Kind n_Fields n_Children]. f_equal.
        change (markFields c (n_Fields nd))
          with (markedFields (fun t => String.eqb t c) (n_Fields nd)).
        rewrite markedFields_compose. apply markedFields_ext. intros t.
        rewrite <- (cyclicChild_shape fuel hm) by exact Hsh.
        unfold cyclicChild at 2. cbn [existsb]. rewrite Hans, andb_true_r.
        reflexivity.
      * apply lookup_insert_eq.
      * intros c' Hc'. rewrite <- (hasCycleWith_shape fuel hm) by exact Hsh.
        apply Hok. constructor. exact Hc'.
    + rewrite (IH hm nd Hnd).
      * f_equal. f_equal. f_equal. apply markedFields_ext. intros t.
        unfold cyclicChild. cbn [existsb]. rewrite Hans, andb_false_r.
        reflexivity.
      * intros c' Hc'. apply Hok. constructor. exact Hc'.
Qed.

Lemma markedGraph_lookup (fuel : nat) (hm0 : gmap string Node) (done : gset string)
      (k : string) :
  markedGraph fuel hm0 done !! k = staged fuel hm0 done k <$> hm0 !! k.
Proof.
  unfold markedGraph. rewrite map_lookup_imap.
  destruct (hm0 !! k); reflexivity.
Qed.

Lemma staged_shape (fuel : nat) (hm0 : gmap string Node) (done : gset string)
      (k : string) (nd : Node) :
  shapeOf (staged fuel hm0 done k nd) = shapeOf nd.
Proof. unfold staged. destruct (decide (k ∈ done)); reflexivity. Qed.

Lemma markedGraph_shape (fuel : nat) (hm0 : gmap string Node) (done : gset string) :
  sameShape hm0 (markedGraph fuel hm0 done).
Proof.
  intros k. rewrite markedGraph_lookup.
  destruct (hm0 !! k) as [nd|]; cbn; [|reflexivity].
  rewrite staged_shape. reflexivity.
Qed.

Lemma markedGraph_empty (fuel : nat) (hm0 : gmap string Node) :
  markedGraph fuel hm0 ∅ = hm0.
Proof.
  apply map_eq. intros k. rewrite markedGraph_lookup.
  destruct (hm0 !! k) as [nd|]; cbn; [|reflexivity].
  unfold staged. rewrite decide_False by set_solver. reflexivity.
Qed.

(** [markCycles] run a second time on a node changes nothing. *)
Lemma markNode_staged (fuel : nat) (hm0 : gmap string Node) (done : gset string)
      (o : string) (nd0 : Node) :
  setFields (staged fuel hm0 done o nd0)
            (markedFields (cyclicChild fuel hm0 o (n_Children nd0))
                          (n_Fields (staged fuel hm0 done o nd0)))
  = markNode fuel hm0 o nd0.
Proof.
  unfold staged. destruct (decide (o ∈ done)); [|reflexivity].
  unfold markNode, setFields. cbn [n_Name n_Kind n_Fields n_Children]. f_equal.
  rewrite markedFields_compose. apply markedFields_ext. intros t.
  apply orb_diag.
Qed.

Section MarkAll.
Variable fuel : nat.
Variable hm0 : gmap string Node.
Hypothesis hm0_closed : closedGraph hm0.
Hypothesis fuel_enough : (size (dom hm0) < fuel)%nat.

(** [markCycles] on a registered node of a partly marked arena returns, and
    adds that node to the marked ones. *)
Lemma markCycles_run (done : gset string) (o : string) :
  is_Some (hm0 !! o) ->
  markCycles fuel (markedGraph fuel hm0 done) o
  = Ok (markedGraph fuel hm0 ({[o]} ∪ done)).
Proof.
  intros [nd0 Hnd0]. unfold markCycles.
  pose proof (markedGraph_shape fuel hm0 done) as Hsh.
  rewrite markedGraph_lookup, Hnd0. cbn [fmap option_fmap option_map].
  assert (n_Children (staged fuel hm0 done o nd0) = n_Children nd0) as Hcs.
  { pose proof (staged_shape fuel hm0 done o nd0) as H. injection H; auto. }
  rewrite Hcs.
  rewrite (markLoop_run fuel o (n_Children nd0) _ (staged fuel hm0 done o nd0)).
  - f_equal. apply map_eq. intros k. rewrite markedGraph_lookup.
    destruct (decide (o = k)) as [<-|Hne].
    + rewrite lookup_insert_eq, Hnd0. cbn. f_equal.
      unfold staged at 3. rewrite decide_True by set_solver.
      rewrite <- (markNode_staged fuel hm0 done o nd0). f_equal.
      apply markedFields_ext. intros t. symmetry. apply cyclicChild_shape, Hsh.
    + rewrite lookup_insert_ne, markedGraph_lookup by exact Hne.
      destruct (hm0 !! k) as [nd|]; cbn; [|reflexivity]. f_equal.
      unfold staged. destruct (decide (k ∈ done)).
      * rewrite decide_True by set_solver. reflexivity.
      * rewrite decide_False by set_solver. reflexivity.
  - rewrite markedGraph_lookup, Hnd0. reflexivity.
  - intros c Hc. rewrite <- (hasCycleWith_shape fuel hm0) by exact Hsh.
    apply hasCycleWith_total; [exact hm0_closed|eexists; exact Hnd0| |].
    + eapply hm0_closed; eauto.
    + rewrite difference_empty_L. exact fuel_enough.
Qed.

(** The second pass of [Link] returns, with every node of the order marked. *)
Lemma markAll_run (order : list string) :
  forall done : gset string,
    (forall o, o ∈ order -> is_Some (hm0 !! o)) ->
    markAll fuel order (markedGraph fuel hm0 done)
    = Ok (markedGraph fuel hm0 (list_to_set order ∪ done)).
Proof.
  induction order as [|o order IH]; intros done Hreg.
  - cbn. rewrite (left_id_L ∅ (∪)). reflexivity.
  - cbn [markAll]. rewrite markCycles_run by (apply Hreg; constructor).
    cbn [mbind result_bind]. rewrite IH.
    + f_equal. f_equal. set_solver.
    + intros o' Ho'. apply Hreg. constructor. exact Ho'.
Qed.
End MarkAll.

(** ** Link: child edges *)

Lemma linkFields_elem (hm : gmap string Node) (fields : list FieldMeta) (c : string) :
  forall (seen : gset string) (children : list string),
    c ∈ linkFields hm fields seen children ->
    c ∈ children \/ (is_Some (hm !! c) /\ exists f, f ∈ fields /\ fm_Type f = c).
Proof.
  induction fields as [|f fields IH]; intros seen children; cbn [linkFields].
  - tauto.
  - destruct (hm !! fm_Type f) as [x|] eqn:Hx.
    + intros H. apply IH in H as [H|(Hc & f' & Hf' & Ht)].
      * destruct (decide (fm_Type f ∈ seen)); [tauto|].
        apply elem_of_app in H as [H|H]; [tauto|].
        apply list_elem_of_singleton in H as ->. right. split; [eauto|].
        exists f. split; [constructor|reflexivity].
      * right. split; [exact Hc|]. exists f'. split; [constructor; exact Hf'|exact Ht].
    + intros H. apply IH in H as [H|(Hc & f' & Hf' & Ht)]; [tauto|].
      right. split; [exact Hc|]. exists f'. split; [constructor; exact Hf'|exact Ht].
Qed.

Lemma linkFields_seen (hm : gmap string Node) (k : string) (fields : list FieldMeta) :
  Forall (fun f => fm_Type f = k) fields ->
  forall (seen : gset string) (children : list string),
    k ∈ seen -> linkFields hm fields seen children = children.
Proof.
  induction 1 as [|f fields Hf _ IH]; intros seen children Hk; cbn [linkFields].
  - reflexivity.
  - rewrite Hf. destruct (hm !! k).
    + rewrite decide_True by exact Hk. apply IH. set_solver.
    + apply IH. exact Hk.
Qed.

(** A node all of whose fields carry one registered type gets that type as
    its only child. *)
Lemma linkFields_single (hm : gmap string Node) (k : string) (fields : list FieldMeta) :
  is_Some (hm !! k) -> fields <> [] ->
  Forall (fun f => fm_Type f = k) fields ->
  linkFields hm fields ∅ [] = [k].
Proof.
  intros [x Hx] Hne Hall. destruct Hall as [|f fields Hf Hall]; [congruence|].
  cbn [linkFields]. rewrite Hf, Hx, decide_False by set_solver.
  apply (linkFields_seen hm k fields Hall). set_solver.
Qed.

Lemma linkChildren_lookup (hm : gmap string Node) (k : string) :
  linkChildren hm !! k = linkNode hm <$> hm !! k.
Proof. unfold linkChildren. apply lookup_fmap. Qed.

Lemma linkChildren_closed (hm : gmap string Node) :
  (forall k nd, hm !! k = Some nd -> n_Children nd = []) ->
  closedGraph (linkChildren hm).
Proof.
  intros Hfresh k nd c. rewrite !linkChildren_lookup.
  destruct (hm !! k) as [nd0|] eqn:Hnd0; cbn; [|discriminate].
  intros [= <-]. cbn. rewrite (Hfresh k nd0 Hnd0).
  intros H. apply linkFields_elem in H as [H|[[x Hx] _]]; [inversion H|].
  rewrite Hx. eexists; reflexivity.
Qed.

(** The child loop reads the arena through the presence of keys only. *)
Lemma linkFields_keys (hm hm' : gmap string Node) (fields : list FieldMeta) :
  (forall t, is_Some (hm !! t) <-> is_Some (hm' !! t)) ->
  forall (seen : gset string) (children : list string),
    linkFields hm fields seen children = linkFields hm' fields seen children.
Proof.
  intros Hkeys. induction fields as [|f fields IH]; intros seen children;
    cbn [linkFields]; [reflexivity|].
  specialize (Hkeys (fm_Type f)).
  destruct (hm !! fm_Type f) as [x|], (hm' !! fm_Type f) as [x'|]; try apply IH.
  - destruct Hkeys as [Hk _]. destruct Hk as [? Hk]; [eauto|discriminate].
  - destruct Hkeys as [_ Hk]. destruct Hk as [? Hk]; [eauto|discriminate].
Qed.

Lemma linkedOn_lookup (done : gset string) (hm : gmap string Node) (k : string) :
  linkedOn done hm !! k
  = (fun nd => if decide (k ∈ done) then linkNode hm nd else nd) <$> hm !! k.
Proof.
  unfold linkedOn. rewrite map_lookup_imap. destruct (hm !! k); reflexivity.
Qed.

Lemma linkStep_linkedOn (done : gset string) (hm : gmap string Node) (o : string) :
  o ∉ done -> linkStep (linkedOn done hm) o = linkedOn ({[o]} ∪ done) hm.
Proof.
  intros Ho. unfold linkStep. rewrite linkedOn_lookup.
  destruct (hm !! o) as [nd|] eqn:Hnd; cbn [fmap option_fmap option_map].
  - rewrite decide_False by exact Ho.
    apply map_eq. intros k. destruct (decide (o = k)) as [<-|Hne].
    + rewrite lookup_insert_eq, linkedOn_lookup, Hnd. cbn.
      rewrite decide_True by set_solver. f_equal.
      unfold linkNode. f_equal. apply linkFields_keys.
      intros t. rewrite linkedOn_lookup, fmap_is_Some. reflexivity.
    + rewrite lookup_insert_ne, !linkedOn_lookup by exact Hne.
      destruct (hm !! k) as [nd'|]; cbn; [|reflexivity]. f_equal.
      destruct (decide (k ∈ done)).
      * rewrite decide_True by set_solver. reflexivity.
      * rewrite decide_False by set_solver. reflexivity.
  - apply map_eq. intros k. rewrite !linkedOn_lookup.
    destruct (hm !! k) as [nd'|] eqn:Hk; cbn; [|reflexivity]. f_equal.
    assert (o <> k) by congruence.
    destruct (decide (k ∈ done)).
    + rewrite decide_True by set_solver. reflexivity.
    + rewrite decide_False by set_solver. reflexivity.
Qed.

(** X10. The first pass of [Link] does not depend on the order in which the
    Go [range] visits the map: visiting every key once, in any order, yields
    the same children for every node. *)
Lemma linkChildrenIn_any_order (order : list string) (hm : gmap string Node) :
  NoDup order -> (forall k, k ∈ order <-> is_Some (hm !! k)) ->
  linkChildrenIn order hm = linkChildren hm.
Proof.
  intros Hnodup Hall.
  assert (forall done : gset string,
             (forall o, o ∈ order -> o ∉ done) ->
             foldl linkStep (linkedOn done hm) order
             = linkedOn (list_to_set order ∪ done) hm) as Hfold.
  { clear Hall. induction Hnodup as [|o order Ho _ IH]; intros done Hdone.
    - cbn. rewrite (left_id_L ∅ (∪)). reflexivity.
    - cbn [foldl]. rewrite linkStep_linkedOn by (apply Hdone; constructor).
      rewrite IH.
      + f_equal. set_solver.
      + intros o' Ho'. specialize (Hdone o' ltac:(constructor; exact Ho')).
        set_solver. }
  unfold linkChildrenIn.
  replace hm with (linkedOn ∅ hm) at 1.
  - rewrite Hfold by set_solver. apply map_eq. intros k.
    rewrite linkedOn_lookup, linkChildren_lookup.
    destruct (hm !! k) as [nd|] eqn:Hk; cbn; [|reflexivity].
    rewrite decide_True; [reflexivity|].
    rewrite (right_id_L ∅ (∪)). apply elem_of_list_to_set, Hall. eauto.
  - apply map_eq. intros k. rewrite linkedOn_lookup.
    destruct (hm !! k); cbn; [|reflexivity].
    rewrite decide_False by set_solver. reflexivity.
Qed.

(** ** Link on collected nodes *)

Lemma collectAll_lookup_elem (nds : list Node) (k : string) (nd : Node) :
  hashMap (collectAll nds) !! k = Some nd -> nd ∈ nds /\ n_Name nd = k.
Proof. rewrite collectAll_hashMap. apply firstNamed_Some. Qed.

Lemma linked_closed (nds : list Node) :
  Forall freshNode nds -> closedGraph (linked nds).
Proof.
  intros Hfresh. apply linkChildren_closed. intros k nd Hnd.
  apply collectAll_lookup_elem in Hnd as [Hin _].
  rewrite Forall_forall in Hfresh. apply Hfresh in Hin as [Hc _]. exact Hc.
Qed.

Lemma linked_size (nds : list Node) : (size (dom (linked nds)) < budget nds)%nat.
Proof.
  unfold linked, linkChildren, budget. rewrite size_dom, map_size_fmap. lia.
Qed.

(** [Link] returns on the nodes collected from fresh ones, and its result is
    the linked arena with every node marked. *)
Lemma Link_collectAll (nds : list Node) :
  Forall freshNode nds ->
  Link (collectAll nds)
  = Ok {| hashMap := markedGraph (budget nds) (linked nds)
                                 (list_to_set (sortOrder (collectAll nds)));
          sortOrder := sortOrder (collectAll nds) |}.
Proof.
  intros Hfresh. unfold Link.
  pose proof (markAll_run (budget nds) (linked nds) (linked_closed nds Hfresh)
                          (linked_size nds) (sortOrder (collectAll nds)) ∅) as Hrun.
  rewrite markedGraph_empty, (right_id_L ∅ (∪)) in Hrun.
  fold (budget nds). fold (linked nds). rewrite Hrun; [reflexivity|].
  intros o Ho. apply collectAll_order_registered in Ho.
  unfold linked. rewrite linkChildren_lookup. destruct Ho as [x ->].
  eexists; reflexivity.
Qed.

(** The node stored under [k] after [Link]: the first node collected under
    that name, with its children linked and its fields marked. *)
Lemma Link_collectAll_lookup (nds : list Node) (k : string) :
  markedGraph (budget nds) (linked nds)
              (list_to_set (sortOrder (collectAll nds))) !! k
  = (fun nd0 => markNode (budget nds) (linked nds) k
                         (linkNode (hashMap (collectAll nds)) nd0))
      <$> firstNamed k nds.
Proof.
  rewrite markedGraph_lookup. unfold linked at 2. rewrite linkChildren_lookup.
  pose proof (collectAll_order_registered nds k) as Hreg.
  rewrite collectAll_hashMap in *.
  destruct (firstNamed k nds) as [nd0|]; cbn; [|reflexivity].
  unfold staged. rewrite decide_True; [reflexivity|].
  apply elem_of_list_to_set, Hreg. eexists; reflexivity.
Qed.

Lemma sameShape_sym (hm hm' : gmap string Node) :
  sameShape hm hm' -> sameShape hm' hm.
Proof. intros H k. symmetry. apply H. Qed.

Lemma objectNode_shape (hm hm' : gmap string Node) (x : string) :
  sameShape hm hm' -> objectNode hm x -> objectNode hm' x.
Proof.
  intros Hsh (nd & Hnd & Hobj). specialize (Hsh x). rewrite Hnd in Hsh.
  destruct (hm' !! x) as [nd'|] eqn:Hnd'; cbn in Hsh; [|discriminate].
  injection Hsh as Hk _. exists nd'. split; [exact Hnd'|congruence].
Qed.

Lemma childOf_shape (hm hm' : gmap string Node) (x y : string) :
  sameShape hm hm' -> childOf hm x y -> childOf hm' x y.
Proof.
  intros Hsh (nd & Hnd & Hy). specialize (Hsh x). rewrite Hnd in Hsh.
  destruct (hm' !! x) as [nd'|] eqn:Hnd'; cbn in Hsh; [|discriminate].
  injection Hsh as _ Hc. exists nd'. split; [exact Hnd'|congruence].
Qed.

Lemma objPath_shape (hm hm' : gmap string Node) (x y : string) :
  sameShape hm hm' -> objPath hm x y -> objPath hm' x y.
Proof.
  intros Hsh. induction 1 as [x Hx|x y z Hx Hxy _ IH].
  - apply objPath_refl. eapply objectNode_shape; eauto.
  - eapply objPath_step; [eapply objectNode_shape|eapply childOf_shape|]; eauto.
Qed.

(** A set of names closed under child edges contains whatever its members
    reach. *)
Lemma objPath_invariant (hm : gmap string Node) (P : string -> Prop) (x z : string) :
  (forall a b, P a -> childOf hm a b -> P b) -> objPath hm x z -> P x -> P z.
Proof.
  intros Hstep. induction 1 as [x _|x y z _ Hxy _ IH]; [auto|].
  intros Hx. apply IH. eapply Hstep; eauto.
Qed.

(** C8. The cycle detection terminates on every graph that [Link] builds from
    collected nodes: on the linked arena a call of [hasCycleWith] returns
    within a recursion depth of one more than the number of registered names
    not yet in [seen]; so does [markCycles] on every registered node with the
    budget of [Link], and [Link] itself returns. *)
Theorem hasCycleWith_terminates (nds : list Node) :
  Forall freshNode nds ->
  (forall (fuel : nat) (n n1 : string) (seen : gset string),
      is_Some (linked nds !! n) -> is_Some (linked nds !! n1) ->
      (size (dom (linked nds) ∖ seen) < fuel)%nat ->
      is_Ok (hasCycleWith fuel (linked nds) n n1 seen)) /\
  (forall n : string,
      is_Some (linked nds !! n) ->
      is_Ok (markCycles (budget nds) (linked nds) n)) /\
  is_Ok (Link (collectAll nds)).
Proof.
  intros Hfresh. split; [|split].
  - apply hasCycleWith_total, linked_closed, Hfresh.
  - intros n Hn.
    pose proof (markCycles_run (budget nds) (linked nds)
                               (linked_closed nds Hfresh) (linked_size nds) ∅ n Hn)
      as Hrun.
    rewrite markedGraph_empty in Hrun. rewrite Hrun. eexists; reflexivity.
  - rewrite (Link_collectAll nds Hfresh). eexists; reflexivity.
Qed.

(** C8 on a graph with a self-loop and a cycle through three nodes. *)
Lemma hasCycleWith_terminates_witness :
  is_Ok (hasCycleWith 5 (linked loopNodes) "P" "Q" ∅) /\
  is_Ok (markCycles (budget loopNodes) (linked loopNodes) "S") /\
  is_Ok (Link (collectAll loopNodes)).
Proof.
  destruct (hasCycleWith_terminates loopNodes ltac:(repeat constructor))
    as (Hcall & Hmark & Hlink).
  split; [|split].
  - apply Hcall.
    + vm_compute. eexists; reflexivity.
    + vm_compute. eexists; reflexivity.
    + vm_compute. lia.
  - apply Hmark. vm_compute. eexists; reflexivity.
  - exact Hlink.
Defined.

Lemma markedFields_sameField (sel : string -> bool) (fields : list FieldMeta) :
  Forall2 sameField fields (markedFields sel fields).
Proof.
  unfold markedFields. induction fields as [|f fields IH]; cbn; constructor; [|exact IH].
  unfold sameField. destruct (sel (fm_Type f)); cbn; tauto.
Qed.

(** C4. [Link] on the nodes that [NewNode] built and [Collect] registered
    returns; it keeps the order and the set of registered names (no node is
    added or removed), and in every node it keeps the name, the kind and, field
    by field, the name, the mapped type, the tag and the nullability: of the
    field metadata only the [hasCycle] flags change, from unset to set.  (The
    [Children] of a node are the edges that [Link] itself creates.) *)
Theorem Link_frame (types : list SchemaType) (nds : list Node) :
  mapR NewNode types = Ok nds ->
  exists G : Nodes,
    Link (collectAll nds) = Ok G /\
    sortOrder G = sortOrder (collectAll nds) /\
    dom (hashMap G) = dom (hashMap (collectAll nds)) /\
    forall (k : string) (nd : Node),
      hashMap (collectAll nds) !! k = Some nd ->
      exists nd' : Node,
        hashMap G !! k = Some nd' /\
        n_Name nd' = n_Name nd /\ n_Kind nd' = n_Kind nd /\
        Forall2 sameField (n_Fields nd) (n_Fields nd').
Proof.
  intros Hbuilt.
  assert (Forall freshNode nds) as Hfresh.
  { eapply Forall_impl; [exact (mapR_NewNode_Ok _ _ Hbuilt)|]. cbn. tauto. }
  eexists. split; [apply Link_collectAll, Hfresh|]. cbn [sortOrder hashMap].
  split; [reflexivity|]. split.
  - apply set_eq. intros k. rewrite !elem_of_dom, Link_collectAll_lookup.
    rewrite collectAll_hashMap. rewrite fmap_is_Some. reflexivity.
  - intros k nd Hnd. rewrite Link_collectAll_lookup.
    rewrite collectAll_hashMap in Hnd. rewrite Hnd.
    cbn [fmap option_fmap option_map].
    eexists. split; [reflexivity|].
    unfold markNode, setFields, linkNode. cbn [n_Name n_Kind n_Fields n_Children].
    split; [reflexivity|]. split; [reflexivity|]. apply markedFields_sameField.
Qed.

(** C4 on the schema of the test case [schema with cycle]. *)
Lemma Link_frame_witness :
  exists G : Nodes,
    buildGraph cycleSchema = Ok G /\
    sortOrder G = ["Product"; "ProductVariant"; "InventoryItem"] /\
    exists nd' : Node,
      hashMap G !! "Product" = Some nd' /\
      n_Name nd' = "Product" /\ n_Kind nd' = OBJECT /\
      map fm_Type (n_Fields nd') = ["string"; "ProductVariant"].
Proof.
  destruct (Link_frame cycleSchema
              (match mapR NewNode cycleSchema with Ok nds => nds | Abort _ => [] end)
              eq_refl) as (G & HG & Horder & _ & Hnodes).
  exists G. split; [exact HG|]. split; [rewrite Horder; reflexivity|].
  destruct (Hnodes "Product"
              (mkNode "Product" OBJECT
                 [mkFieldMeta "name" "string" "name" false false;
                  mkFieldMeta "variant" "ProductVariant" "variant" false false] []))
    as (nd' & Hnd' & Hname & Hkind & Hfields); [vm_compute; reflexivity|].
  exists nd'. split; [exact Hnd'|]. split; [exact Hname|]. split; [exact Hkind|].
  cbn [n_Fields] in Hfields.
  apply Forall2_cons_inv_l in Hfields as (f1 & fs & (_ & Ht1 & _) & Hfields & ->).
  apply Forall2_cons_inv_l in Hfields as (f2 & fs' & (_ & Ht2 & _) & Hfields & ->).
  apply Forall2_nil_inv_l in Hfields as ->.
  cbn. rewrite Ht1, Ht2. reflexivity.
Defined.

(** ** Emission order *)

Lemma Link_sortOrder (n G : Nodes) : Link n = Ok G -> sortOrder G = sortOrder n.
Proof.
  unfold Link. intros H. apply bind_Ok in H as (hm & _ & [= <-]). reflexivity.
Qed.

Section EmissionFacts.
Variables ToLower ToUpper : string -> string.

(** The slice [out] of [ToGoTypes] holds, position by position, the
    declaration of the node registered under the name at that position of the
    order. *)
Lemma ToGoTypes_out_Ok (n : Nodes) (out : list string) :
  ToGoTypes_out ToLower ToUpper n = Ok out <->
  Forall2 (fun k decl =>
             exists nd, hashMap n !! k = Some nd /\
                        emitNode ToLower ToUpper nd = Ok decl)
          (sortOrder n) out.
Proof.
  unfold ToGoTypes_out. split.
  - intros Hout. apply mapR_Ok_Forall2 in Hout.
    eapply Forall2_impl; [exact Hout|]. cbn. intros k decl Hk.
    destruct (hashMap n !! k) as [nd|]; [|discriminate].
    exists nd. split; [reflexivity|exact Hk].
  - intros Hout. apply mapR_Forall2_Ok.
    eapply Forall2_impl; [exact Hout|]. cbn. intros k decl (nd & -> & Hk).
    exact Hk.
Qed.

(** The text returned by [ToGoTypes]: the declarations of the nodes
    registered under the names of the order, in the order's sequence, joined
    by a line feed. *)
Lemma ToGoTypes_Ok (n : Nodes) (text : string) :
  ToGoTypes ToLower ToUpper n = Ok text <->
  exists out : list string,
    Forall2 (fun k decl =>
               exists nd, hashMap n !! k = Some nd /\
                          emitNode ToLower ToUpper nd = Ok decl)
            (sortOrder n) out /\
    text = Join out LF.
Proof.
  unfold ToGoTypes. rewrite bind_Ok. split.
  - intros (out & Hout & [= <-]). exists out.
    split; [apply ToGoTypes_out_Ok; exact Hout|reflexivity].
  - intros (out & Hout & ->). exists out.
    split; [apply ToGoTypes_out_Ok; exact Hout|reflexivity].
Qed.

(** C5. The order of emission is the order of first [Collect]: after any run
    of [Collect] calls the order holds the collected names by first
    occurrence, each once, and the map holds, under each name, the first node collected
    with it; collecting a registered name changes nothing; [Link] keeps the
    order; and [ToGoTypes] emits, position by position, the declaration of the
    node registered under the name at that position of the order (it never
    enumerates the map).  So the text [ToGoTypes] returns, on the collection
    as collected and on the collection after [Link], is exactly the
    declarations of the first node of each name, in the sequence of first
    collection, joined by a line feed; and whenever these declarations can all
    be written, [ToGoTypes] returns that text. *)
Theorem emission_order (nds : list Node) :
  sortOrder (collectAll nds) = firstOccurrences (map n_Name nds) /\
  NoDup (sortOrder (collectAll nds)) /\
  (forall k : string, hashMap (collectAll nds) !! k = firstNamed k nds) /\
  (forall (n : Nodes) (nd : Node),
      is_Some (hashMap n !! n_Name nd) -> Collect n nd = n) /\
  (forall G : Nodes,
      Link (collectAll nds) = Ok G ->
      sortOrder G = firstOccurrences (map n_Name nds)) /\
  (forall (n : Nodes) (out : list string),
      ToGoTypes_out ToLower ToUpper n = Ok out ->
      Forall2 (fun k decl =>
                 exists nd, hashMap n !! k = Some nd /\
                            emitNode ToLower ToUpper nd = Ok decl)
              (sortOrder n) out) /\
  (forall (n : Nodes) (text : string),
      ToGoTypes ToLower ToUpper n = Ok text <->
      exists out : list string,
        Forall2 (fun k decl =>
                   exists nd, hashMap n !! k = Some nd /\
                              emitNode ToLower ToUpper nd = Ok decl)
                (sortOrder n) out /\
        text = Join out LF) /\
  (forall text : string,
      ToGoTypes ToLower ToUpper (collectAll nds) = Ok text <->
      exists out : list string,
        Forall2 (fun k decl =>
                   exists nd, firstNamed k nds = Some nd /\
                              emitNode ToLower ToUpper nd = Ok decl)
                (firstOccurrences (map n_Name nds)) out /\
        text = Join out LF) /\
  (forall (G : Nodes) (text : string),
      Link (collectAll nds) = Ok G ->
      (ToGoTypes ToLower ToUpper G = Ok text <->
       exists out : list string,
         Forall2 (fun k decl =>
                    exists nd, hashMap G !! k = Some nd /\
                               emitNode ToLower ToUpper nd = Ok decl)
                 (firstOccurrences (map n_Name nds)) out /\
         text = Join out LF)).
Proof.
  split; [apply collectAll_sortOrder|].
  split; [rewrite collectAll_sortOrder; apply NoDup_firstOccurrences|].
  split; [apply collectAll_hashMap|].
  split; [apply Collect_registered|].
  split.
  { intros G HG. rewrite (Link_sortOrder _ _ HG). apply collectAll_sortOrder. }
  split.
  { intros n out Hout. apply ToGoTypes_out_Ok. exact Hout. }
  split; [apply ToGoTypes_Ok|].
  split.
  - intros text. rewrite ToGoTypes_Ok, collectAll_sortOrder.
    split; intros (out & Hout & ->); exists out; (split; [|reflexivity]);
      (eapply Forall2_impl; [exact Hout|]); cbn; intros k decl (nd & Hnd & Hk);
      exists nd; (split; [|exact Hk]).
    + rewrite <- collectAll_hashMap. exact Hnd.
    + rewrite collectAll_hashMap. exact Hnd.
  - intros G text HG. rewrite ToGoTypes_Ok, (Link_sortOrder _ _ HG),
      collectAll_sortOrder. reflexivity.
Qed.
End EmissionFacts.

(** C5 on three nodes collected as B, A, B: the second B is dropped, the
    declarations come out as B, A, and the text is the declaration of the
    first B, a line feed, and the declaration of A. *)
Lemma emission_order_witness :
  Collect (collectAll [createNode "B" []; createNode "A" []]) (createNode "B" ["A"])
  = collectAll [createNode "B" []; createNode "A" []] /\
  (exists G, Link (collectAll [createNode "B" []; createNode "A" []; createNode "B" ["A"]])
             = Ok G /\ sortOrder G = ["B"; "A"]) /\
  Forall2 (fun k decl =>
             exists nd,
               hashMap (collectAll [createNode "B" []; createNode "A" []]) !! k = Some nd /\
               emitNode ToLowerASCII ToUpperASCII nd = Ok decl)
          ["B"; "A"]
          ["type B struct {" +:+ LF +:+ "}" +:+ LF;
           "type A struct {" +:+ LF +:+ "}" +:+ LF] /\
  ToGoTypes ToLowerASCII ToUpperASCII
            (collectAll [createNode "B" []; createNode "A" []; createNode "B" ["A"]])
  = Ok ("type B struct {" +:+ LF +:+ "}" +:+ LF +:+ LF
        +:+ "type A struct {" +:+ LF +:+ "}" +:+ LF).
Proof.
  pose proof (emission_order ToLowerASCII ToUpperASCII
                [createNode "B" []; createNode "A" []])
    as (_ & _ & _ & Hdup & _ & Hout & _).
  pose proof (emission_order ToLowerASCII ToUpperASCII
                [createNode "B" []; createNode "A" []; createNode "B" ["A"]])
    as (_ & _ & _ & _ & Hlink & _ & _ & Htext & _).
  split; [|split; [|split]].
  - apply Hdup. vm_compute. eexists; reflexivity.
  - eexists. split; [vm_compute; reflexivity|].
    apply Hlink. vm_compute. reflexivity.
  - apply (Hout (collectAll [createNode "B" []; createNode "A" []])).
    vm_compute. reflexivity.
  - apply Htext.
    exists ["type B struct {" +:+ LF +:+ "}" +:+ LF;
            "type A struct {" +:+ LF +:+ "}" +:+ LF].
    split; [|vm_compute; reflexivity].
    repeat constructor; eexists; (split; vm_compute; reflexivity).
Defined.

(** ** Cycle marking on collected nodes *)

Lemma cyclicChild_true (fuel : nat) (hm : gmap string Node) (n : string)
      (cs : list string) (t : string) :
  cyclicChild fuel hm n cs t = true <->
  t ∈ cs /\ exists s, hasCycleWith fuel hm n t ∅ = Ok (true, s).
Proof.
  unfold cyclicChild. rewrite existsb_exists. split.
  - intros (c & Hc & Hand). apply andb_true_iff in Hand as [Heq Hans].
    apply String.eqb_eq in Heq. subst c. split; [apply list_elem_of_In, Hc|].
    unfold cycleAnswer in Hans.
    destruct (hasCycleWith fuel hm n t ∅) as [[b s]|e]; [|discriminate].
    subst b. eexists; reflexivity.
  - intros (Hc & s & Hs). exists t. split; [apply list_elem_of_In, Hc|].
    rewrite String.eqb_refl. unfold cycleAnswer. rewrite Hs. reflexivity.
Qed.

(** The flag of a field after [Link], for collected fresh nodes: set exactly
    when the field's type is a child for which [hasCycleWith] answered
    [true]. *)
Lemma Link_collectAll_flag (nds : list Node) (k : string) (nd : Node) (f : FieldMeta) :
  Forall freshNode nds ->
  markedGraph (budget nds) (linked nds)
              (list_to_set (sortOrder (collectAll nds))) !! k = Some nd ->
  f ∈ n_Fields nd ->
  fm_hasCycle f = cyclicChild (budget nds) (linked nds) k (n_Children nd) (fm_Type f).
Proof.
  intros Hfresh Hnd Hf. rewrite Link_collectAll_lookup in Hnd.
  destruct (firstNamed k nds) as [nd0|] eqn:Hnd0; [|discriminate].
  injection Hnd as <-. apply firstNamed_Some in Hnd0 as [Hin _].
  rewrite Forall_forall in Hfresh. apply Hfresh in Hin as [_ Hflags].
  unfold markNode, setFields, linkNode in *.
  cbn [n_Name n_Kind n_Fields n_Children] in *.
  unfold markedFields in Hf. apply list_elem_of_fmap in Hf as (f0 & -> & Hf0).
  rewrite Forall_forall in Hflags. apply Hflags in Hf0.
  destruct (cyclicChild _ _ _ _ (fm_Type f0)) eqn:Hsel; cbn; rewrite Hsel; auto.
Qed.

(** C1 (amended). After [Link] on collected nodes, for a field of a node N
    whose mapped type is a direct child C of N: when C reaches, through
    object nodes, a node on a cycle of object nodes, the field is flagged; in
    particular it is flagged when there is a path of object nodes from C back
    to N.  A flagged field always has for mapped type a direct child that is
    an object node with a child of its own. *)
Theorem markCycles_flags (nds : list Node) :
  Forall freshNode nds ->
  exists G : Nodes,
    Link (collectAll nds) = Ok G /\
    forall (k : string) (nd : Node) (f : FieldMeta),
      hashMap G !! k = Some nd -> f ∈ n_Fields nd ->
      (fm_Type f ∈ n_Children nd ->
       forall x y : string,
         objPath (hashMap G) (fm_Type f) x -> childOf (hashMap G) x y ->
         objPath (hashMap G) y x ->
         fm_hasCycle f = true) /\
      (fm_Type f ∈ n_Children nd ->
       objPath (hashMap G) (fm_Type f) k ->
       fm_hasCycle f = true) /\
      (fm_hasCycle f = true ->
       fm_Type f ∈ n_Children nd /\
       objectNode (hashMap G) (fm_Type f) /\
       exists y : string, childOf (hashMap G) (fm_Type f) y).
Proof.
  intros Hfresh. eexists. split; [apply Link_collectAll, Hfresh|].
  cbn [hashMap]. intros k nd f Hnd Hf.
  pose proof (markedGraph_shape (budget nds) (linked nds)
                (list_to_set (sortOrder (collectAll nds)))) as Hsh.
  pose proof (Link_collectAll_flag nds k nd f Hfresh Hnd Hf) as Hflag.
  assert (forall x y : string,
             fm_Type f ∈ n_Children nd ->
             objPath (linked nds) (fm_Type f) x -> childOf (linked nds) x y ->
             objPath (linked nds) y x -> fm_hasCycle f = true) as Hcomplete.
  { intros x y Hchild Hcx Hxy Hyx. rewrite Hflag. apply cyclicChild_true.
    split; [exact Hchild|].
    destruct (hasCycleWith_total (linked nds) (linked_closed nds Hfresh)
                (budget nds) k (fm_Type f) ∅) as [[b s] Hrun].
    - pose proof (Hsh k) as Hk. rewrite Hnd in Hk.
      destruct (linked nds !! k); [eexists; reflexivity|discriminate].
    - destruct (childOf_shape _ _ k (fm_Type f) (sameShape_sym _ _ Hsh))
        as (nd1 & Hnd1 & Hin1); [exists nd; split; assumption|].
      eapply (linked_closed nds Hfresh); eassumption.
    - rewrite difference_empty_L. apply linked_size.
    - destruct b; [eexists; exact Hrun|].
      exfalso.
      exact (hasCycleWith_reaches_cycle _ _ _ _ x y _ _ Hcx Hxy Hyx Hrun). }
  split; [|split].
  - intros Hchild x y Hcx Hxy Hyx.
    apply (Hcomplete x y Hchild); [eapply objPath_shape|eapply childOf_shape|eapply objPath_shape];
      try eassumption; apply sameShape_sym, Hsh.
  - intros Hchild Hck.
    apply (Hcomplete k (fm_Type f) Hchild).
    + eapply objPath_shape; [apply sameShape_sym, Hsh|exact Hck].
    + eapply childOf_shape; [apply sameShape_sym, Hsh|]. exists nd. split; assumption.
    + eapply objPath_shape; [apply sameShape_sym, Hsh|exact Hck].
  - intros Hset. rewrite Hflag in Hset. apply cyclicChild_true in Hset as (Hin & s & Hs).
    split; [exact Hin|].
    apply hasCycleWith_true_empty in Hs as (Hobj & y & Hy).
    split; [eapply objectNode_shape; eassumption|].
    exists y. eapply childOf_shape; eassumption.
Qed.

(** C1 (amended) on the self-loop of [loopNodes]: the field of S that points
    at S is flagged, and S is an object node with a child. *)
Lemma markCycles_flags_witness :
  exists G : Nodes,
    Link (collectAll loopNodes) = Ok G /\
    hashMap G !! "S"
    = Some (mkNode "S" OBJECT [mkFieldMeta "S" "S" "S" true false] ["S"]) /\
    fm_hasCycle (mkFieldMeta "S" "S" "S" true false) = true /\
    objectNode (hashMap G) "S".
Proof.
  destruct (markCycles_flags loopNodes ltac:(repeat constructor))
    as (G & HG & Hflags).
  assert (Ok G = Ok (match Link (collectAll loopNodes) with
                     | Ok g => g
                     | Abort _ => NewNodes
                     end)) as HG'.
  { rewrite <- HG. vm_compute. reflexivity. }
  injection HG' as ->.
  eexists. split; [exact HG|].
  assert (hashMap (match Link (collectAll loopNodes) with
                   | Ok g => g
                   | Abort _ => NewNodes
                   end) !! "S"
          = Some (mkNode "S" OBJECT [mkFieldMeta "S" "S" "S" true false] ["S"]))
    as Hnd by (vm_compute; reflexivity).
  split; [exact Hnd|].
  destruct (Hflags "S" _ (mkFieldMeta "S" "S" "S" true false) Hnd
                   ltac:(cbn; constructor))
    as (_ & Hback & Hsound).
  assert (fm_hasCycle (mkFieldMeta "S" "S" "S" true false) = true) as Hset.
  { apply Hback.
    - cbn. constructor.
    - apply objPath_refl. eexists. split; [exact Hnd|reflexivity]. }
  split; [exact Hset|]. apply (Hsound Hset).
Defined.

(** C1 (as stated, refuted) on the schema of the test case [schema with
    cycle].  The field [variant] of [Product] is flagged, as the test expects
    (it is emitted as a pointer without [omitempty]), yet no path leads from
    [ProductVariant] back to [Product]: [ProductVariant] only leads into the
    cycle it forms with [InventoryItem]. *)
Lemma Product_variant_flagged_without_path :
  buildGraph cycleSchema = Ok cycleGraph /\
  exists nd f,
    hashMap cycleGraph !! "Product" = Some nd /\
    f ∈ n_Fields nd /\ fm_Type f = "ProductVariant" /\
    "ProductVariant" ∈ n_Children nd /\
    fm_hasCycle f = true /\
    ~ objPath (hashMap cycleGraph) "ProductVariant" "Product".
Proof.
  split; [vm_compute; reflexivity|].
  exists (mkNode "Product" OBJECT
            [mkFieldMeta "name" "string" "name" false false;
             mkFieldMeta "variant" "ProductVariant" "variant" true false]
            ["ProductVariant"]),
         (mkFieldMeta "variant" "ProductVariant" "variant" true false).
  split; [vm_compute; reflexivity|].
  split; [cbn; rewrite !elem_of_cons; tauto|].
  split; [reflexivity|].
  split; [cbn; constructor|].
  split; [reflexivity|].
  intros Hpath.
  pose proof (objPath_invariant (hashMap cycleGraph)
                (fun a => a = "ProductVariant" \/ a = "InventoryItem")
                "ProductVariant" "Product") as Hinv.
  destruct Hinv as [Heq|Heq]; [|exact Hpath|left; reflexivity|discriminate|discriminate].
  intros a b [->| ->] (nd' & Hnd' & Hb); vm_compute in Hnd'; injection Hnd' as <-;
    cbn in Hb; apply list_elem_of_singleton in Hb; subst b; tauto.
Qed.

(** The broader condition of C1 (amended) is not necessary either: in the
    graph A -> B, B -> C, B -> D the field of A that points at B is flagged
    although B reaches no cycle; the second child of B is asked when B is
    already in [seen]. *)
Lemma tree_parent_flagged :
  Link (collectAll treeNodes) = Ok treeGraph /\
  hashMap treeGraph !! "A"
  = Some (mkNode "A" OBJECT [mkFieldMeta "B" "B" "B" true false] ["B"]) /\
  forall x y : string,
    objPath (hashMap treeGraph) "B" x -> childOf (hashMap treeGraph) x y ->
    ~ objPath (hashMap treeGraph) y x.
Proof.
  split; [vm_compute; reflexivity|]. split; [vm_compute; reflexivity|].
  assert (forall a b, childOf (hashMap treeGraph) a b ->
                      (a = "B" \/ a = "C" \/ a = "D") ->
                      a = "B" /\ (b = "C" \/ b = "D")) as Hedges.
  { intros a b (nd & Hnd & Hb) [->|[->| ->]]; vm_compute in Hnd;
      injection Hnd as <-; cbn in Hb.
    - rewrite !elem_of_cons, elem_of_nil in Hb. tauto.
    - inversion Hb.
    - inversion Hb. }
  intros x y Hx Hxy Hyx.
  assert (x = "B" \/ x = "C" \/ x = "D") as Hx'.
  { apply (objPath_invariant (hashMap treeGraph)
             (fun a => a = "B" \/ a = "C" \/ a = "D") "B" x);
      [|exact Hx|tauto].
    intros a b Ha Hab. destruct (Hedges a b Hab Ha) as [_ Hb]. tauto. }
  destruct (Hedges x y Hxy Hx') as [-> Hy].
  assert ("B" = "C" \/ "B" = "D") as Hfalse.
  { apply (objPath_invariant (hashMap treeGraph)
             (fun a => a = "C" \/ a = "D") y "B"); [|exact Hyx|exact Hy].
    intros a b Ha Hab.
    destruct (Hedges a b Hab) as [-> _]; [tauto|].
    destruct Ha; discriminate. }
  destruct Hfalse; discriminate.
Qed.

(** ** Enum nodes *)

(** C10. After [Link] on the nodes built by [NewNode], an enum node with at
    least one value is stored under its own name and has itself as its only
    child; the question [hasCycleWith] asks about that self-edge is answered
    [false] at once, the child being of kind [ENUM], and none of the node's
    fields is flagged. *)
Theorem enum_self_child (types : list SchemaType) (nds : list Node) :
  mapR NewNode types = Ok nds ->
  exists G : Nodes,
    Link (collectAll nds) = Ok G /\
    forall (k : string) (nd : Node),
      hashMap G !! k = Some nd -> n_Kind nd = ENUM -> n_Fields nd <> [] ->
      n_Name nd = k /\ k ∈ n_Children nd /\ n_Children nd = [k] /\
      hasCycleWith (budget nds) (hashMap G) k k ∅ = Ok (false, ∅) /\
      Forall (fun f => fm_Type f = k /\ fm_hasCycle f = false) (n_Fields nd).
Proof.
  intros Hbuilt. pose proof (mapR_NewNode_Ok _ _ Hbuilt) as Hnodes.
  assert (Forall freshNode nds) as Hfresh.
  { eapply Forall_impl; [exact Hnodes|]. cbn. tauto. }
  eexists. split; [apply Link_collectAll, Hfresh|].
  cbn [hashMap]. intros k nd Hnd Hkind Hne.
  pose proof (Link_collectAll_flag nds k nd) as Hflag.
  specialize (fun f => Hflag f Hfresh Hnd).
  assert (hasCycleWith (budget nds)
            (markedGraph (budget nds) (linked nds)
               (list_to_set (sortOrder (collectAll nds)))) k k ∅
          = Ok (false, ∅)) as Hans.
  { unfold budget at 1. cbn [hasCycleWith].
    rewrite decide_False by set_solver. rewrite Hnd, Hkind. reflexivity. }
  rewrite <- (hasCycleWith_shape _ (linked nds)) in Hans
    by apply markedGraph_shape.
  rewrite <- (hasCycleWith_shape _ (linked nds)) by apply markedGraph_shape.
  rewrite Link_collectAll_lookup in Hnd.
  destruct (firstNamed k nds) as [nd0|] eqn:Hnd0; [|discriminate].
  injection Hnd as <-.
  pose proof Hnd0 as Hreg. apply firstNamed_Some in Hnd0 as [Hin Hname].
  rewrite Forall_forall in Hnodes.
  destruct (Hnodes nd0 Hin) as [[Hchildren Hflags] Htypes].
  unfold markNode, setFields, linkNode in *.
  cbn [n_Name n_Kind n_Fields n_Children] in *.
  specialize (Htypes Hkind). rewrite Hname in Htypes.
  assert (n_Fields nd0 <> []) as Hne0.
  { intros Hnil. apply Hne. rewrite Hnil. reflexivity. }
  assert (linkFields (hashMap (collectAll nds)) (n_Fields nd0) ∅ (n_Children nd0)
          = [k]) as Hcs.
  { rewrite Hchildren. apply linkFields_single; [|exact Hne0|exact Htypes].
    rewrite collectAll_hashMap, Hreg. eexists; reflexivity. }
  rewrite Hcs in *.
  split; [exact Hname|]. split; [constructor|]. split; [reflexivity|].
  split; [exact Hans|].
  apply Forall_forall. intros f Hf. pose proof (Hflag f Hf) as Hf'.
  unfold markedFields in Hf. apply list_elem_of_fmap in Hf as (f0 & Heq & Hf0).
  rewrite Forall_forall in Htypes.
  assert (fm_Type f = k) as Ht.
  { rewrite Heq. destruct (cyclicChild _ _ _ _ _); cbn; apply Htypes, Hf0. }
  split; [exact Ht|].
  rewrite Hf'. unfold cyclicChild, cycleAnswer. cbn [existsb].
  rewrite Hans. rewrite andb_false_r. reflexivity.
Qed.

(** C10 on the schema of the test case [schema with enum type]: the node of
    the enum [Status] has itself as its only child. *)
Lemma enum_self_child_witness :
  exists nd : Node,
    buildGraph enumSchema = Ok enumGraph /\
    hashMap enumGraph !! "Status" = Some nd /\
    n_Children nd = ["Status"] /\
    Forall (fun f => fm_Type f = "Status" /\ fm_hasCycle f = false) (n_Fields nd).
Proof.
  destruct (enum_self_child enumSchema
              (match mapR NewNode enumSchema with Ok nds => nds | Abort _ => [] end)
              eq_refl) as (G & HG & Hall).
  assert (Ok G = Ok enumGraph) as HG'.
  { rewrite <- HG. vm_compute. reflexivity. }
  injection HG' as ->.
  exists (mkNode "Status" ENUM
            [mkFieldMeta "ACTIVE" "Status" "ACTIVE" false false;
             mkFieldMeta "INACTIVE" "Status" "INACTIVE" false false]
            ["Status"]).
  split; [vm_compute; reflexivity|].
  split; [vm_compute; reflexivity|].
  destruct (Hall "Status"
              (mkNode "Status" ENUM
                 [mkFieldMeta "ACTIVE" "Status" "ACTIVE" false false;
                  mkFieldMeta "INACTIVE" "Status" "INACTIVE" false false]
                 ["Status"]))
    as (_ & _ & Hcs & _ & Hfields);
    [vm_compute; reflexivity|reflexivity|discriminate|].
  split; [exact Hcs|exact Hfields].
Defined.

(** * Further properties *)

(** ** The [result] monad, continued *)

Lemma mapR_is_Ok {A B} (f : A -> result B) (l : list A) :
  is_Ok (mapR f l) <-> Forall (fun x => is_Ok (f x)) l.
Proof.
  induction l as [|x l IH]; cbn.
  - split; [constructor|intros _; eexists; reflexivity].
  - rewrite Forall_cons, <- IH. unfold is_Ok.
    destruct (f x) as [y|e]; cbn.
    + destruct (mapR f l) as [ys|e]; cbn.
      * split; [intros _; split; eexists; reflexivity|intros _; eexists; reflexivity].
      * split; [intros [a Ha]; discriminate|intros [_ [a Ha]]; discriminate].
    + split; [intros [a Ha]; discriminate|intros [[a Ha] _]; discriminate].
Qed.

Lemma mapR_Abort {A B} (f : A -> result B) (l : list A) (e : abort) :
  mapR f l = Abort e -> exists x, x ∈ l /\ f x = Abort e.
Proof.
  induction l as [|x l IH]; cbn; [discriminate|].
  destruct (f x) as [y|e'] eqn:Hx; cbn.
  - destruct (mapR f l) as [ys|e'']; cbn; [discriminate|].
    intros [= ->]. destruct (IH eq_refl) as (x' & Hin & Hx').
    exists x'. split; [constructor; exact Hin|exact Hx'].
  - intros [= ->]. exists x. split; [constructor|exact Hx].
Qed.

Lemma bind_Ok_is_Ok {A B} (m : result A) (g : A -> B) :
  is_Ok (m ≫= fun a => Ok (g a)) <-> is_Ok m.
Proof.
  unfold is_Ok. destruct m as [a|e]; cbn.
  - split; intros _; eexists; reflexivity.
  - split; intros [b Hb]; discriminate.
Qed.

(** ** The type mapper, continued *)

Lemma gqlTypeToGoType_Abort (ref : TypeRef) (e : abort) :
  gqlTypeToGoType ref = Abort e -> e = NilDereference.
Proof.
  revert e. induction ref as [kind name|kind name r IHr] using TypeRef_wrap_ind;
    intros e; cbn [gqlTypeToGoType];
    repeat match goal with
           | |- context [if ?b then _ else _] => destruct b
           end;
    try discriminate; try congruence; try (apply IHr).
  destruct (gqlTypeToGoType r) as [s|e'] eqn:Hr; cbn; [discriminate|].
  intros [= <-]. apply IHr. reflexivity.
Qed.

(** X1. The mapper fails in one way only, the nil dereference, and it does so
    exactly on the references for which the path it follows (through
    [NON_NULL] and [NULL] wrappers, and through [LIST] wrappers of a named
    element) ends in a [NULL] reference with a nil [OfType]. *)
Theorem gqlTypeToGoType_panics_iff (ref : TypeRef) :
  (gqlTypeToGoType ref = Abort NilDereference <-> wrapsNilNULL ref = true) /\
  (forall e, gqlTypeToGoType ref = Abort e -> e = NilDereference).
Proof.
  split; [|apply gqlTypeToGoType_Abort].
  pose proof (gqlTypeToGoType_Ok_iff ref) as Hok. unfold is_Ok in Hok.
  destruct (gqlTypeToGoType ref) as [s|e] eqn:Hr.
  - split; [discriminate|]. intros Hw.
    destruct Hok as [Hok _]. rewrite Hok in Hw by (eexists; reflexivity).
    discriminate.
  - rewrite (gqlTypeToGoType_Abort ref e Hr). split; [|reflexivity].
    intros _. destruct (wrapsNilNULL ref); [reflexivity|].
    destruct Hok as [_ Hok]. destruct (Hok eq_refl) as [a Ha]. discriminate.
Qed.

Lemma brackets_S (n : nat) (s : string) :
  "[]" +:+ (brackets n +:+ s) = brackets (S n) +:+ s.
Proof. cbn [brackets]. rewrite string_app_assoc. reflexivity. Qed.

(** X2. The mapper invents no identifier: whatever it returns is some number
    of slice markers followed by a built-in Go type ([int], [float64],
    [string], [bool], [any]) or by a name that occurs in the reference. *)
Theorem gqlTypeToGoType_shape (ref : TypeRef) (s : string) :
  gqlTypeToGoType ref = Ok s ->
  exists (n : nat) (base : string),
    s = brackets n +:+ base /\
    (base ∈ builtinTypes \/ base ∈ wrappedNames ref).
Proof.
  revert s.
  induction ref as [kind name|kind name r IHr] using TypeRef_wrap_ind;
    intros s; cbn [gqlTypeToGoType wrappedNames];
    repeat match goal with
           | |- context [if ?b then _ else _] => destruct b
           end;
    try discriminate;
    try (intros [= <-];
         first [ solve [ exists O; eexists; split; [reflexivity|]; left;
                         unfold builtinTypes; rewrite !elem_of_cons; tauto ]
               | solve [ exists O; eexists; split; [reflexivity|]; right;
                         constructor ]
               | solve [ exists 1%nat, "any"; split; [reflexivity|]; left;
                         unfold builtinTypes; rewrite !elem_of_cons; tauto ] ]).
  - intros Hr. destruct (IHr s Hr) as (n & base & -> & [Hb|Hn]).
    + exists n, base. split; [reflexivity|left; exact Hb].
    + exists n, base. split; [reflexivity|right; constructor; exact Hn].
  - intros Hr. destruct (IHr s Hr) as (n & base & -> & [Hb|Hn]).
    + exists n, base. split; [reflexivity|left; exact Hb].
    + exists n, base. split; [reflexivity|right; constructor; exact Hn].
  - destruct (gqlTypeToGoType r) as [s'|e] eqn:Hr; cbn; [|discriminate].
    intros [= <-]. destruct (IHr s' eq_refl) as (n & base & -> & [Hb|Hn]).
    + exists (S n), base. split; [apply brackets_S|left; exact Hb].
    + exists (S n), base. split; [apply brackets_S|right; constructor; exact Hn].
Qed.

(** X2 on a list of strings. *)
Lemma gqlTypeToGoType_shape_witness :
  exists (n : nat) (base : string),
    "[]string" = brackets n +:+ base /\
    (base ∈ builtinTypes \/
     base ∈ wrappedNames (mkTypeRef LIST EmptyString
                                    (Some (mkTypeRef SCALAR "String" None)))).
Proof.
  apply (gqlTypeToGoType_shape
           (mkTypeRef LIST EmptyString (Some (mkTypeRef SCALAR "String" None)))
           "[]string").
  reflexivity.
Defined.

(** A [LIST] reference whose element reference carries no name is mapped
    to the slice of any, whatever the element is and wraps: the element types
    of a list of lists and of a list of non-null elements are dropped, and a
    malformed element cannot make the mapper fail. *)
Theorem gqlTypeToGoType_LIST_unnamed_element
        (name : string) (kind : TypeKind) (ofType : option TypeRef) :
  gqlTypeToGoType (mkTypeRef LIST name (Some (mkTypeRef kind EmptyString ofType)))
  = Ok "[]any".
Proof. reflexivity. Qed.

(** ** The node builder, continued *)

Lemma newFieldMeta_is_Ok (name : string) (ty : TypeRef) :
  is_Ok (newFieldMeta name ty) <-> wrapsNilNULL ty = false.
Proof.
  unfold newFieldMeta. rewrite bind_Ok_is_Ok. apply gqlTypeToGoType_Ok_iff.
Qed.

(** X4. [NewNode] fails exactly when one of the field types it hands to the
    mapper makes the mapper fail; it always returns for an enum and for the
    kinds that carry no fields. *)
Theorem NewNode_Ok_iff (schema : SchemaType) :
  is_Ok (NewNode schema)
  <-> Forall (fun ty => wrapsNilNULL ty = false) (consultedTypes schema).
Proof.
  unfold NewNode, consultedTypes. rewrite bind_Ok_is_Ok.
  destruct ((t_Kind schema =? OBJECT) || (t_Kind schema =? INTERFACE)
            || (t_Kind schema =? UNION)).
  { rewrite mapR_is_Ok. change (map f_Type (t_Fields schema))
      with (f_Type <$> t_Fields schema).
    rewrite Forall_fmap. apply Forall_iff. intros f. apply newFieldMeta_is_Ok. }
  destruct (t_Kind schema =? INPUT_OBJECT).
  { rewrite mapR_is_Ok. change (map if_Type (t_InputFields schema))
      with (if_Type <$> t_InputFields schema).
    rewrite Forall_fmap. apply Forall_iff. intros f. apply newFieldMeta_is_Ok. }
  split; [constructor|].
  intros _. destruct (t_Kind schema =? ENUM); eexists; reflexivity.
Qed.

Lemma mapR_newFieldMeta_types {A} (name : A -> string) (ty : A -> TypeRef)
      (l : list A) (fields : list FieldMeta) :
  mapR (fun x => newFieldMeta (name x) (ty x)) l = Ok fields ->
  Forall2 (fun t f => gqlTypeToGoType t = Ok (fm_Type f)
                      /\ fm_isNullable f = (tr_Kind t =? NULL) || isNil (tr_OfType t))
          (map ty l) fields.
Proof.
  intros H. apply mapR_Ok_Forall2 in H.
  induction H as [|x f l fields Hx _ IH]; cbn; constructor; [|exact IH].
  apply newFieldMeta_Ok in Hx. tauto.
Qed.

(** X5. A node built by [NewNode] has one field per declared member of its
    kind (fields, input fields or enum values), in declaration order, named and
    tagged by the member's name; the field types are the mapper's results
    for the declared types, a field is nullable exactly when its declared
    reference is of kind [NULL] or wraps nothing, and every other kind of type
    gives a node without fields. *)
Theorem NewNode_members (schema : SchemaType) (nd : Node) :
  NewNode schema = Ok nd ->
  map fm_Name (n_Fields nd) = memberNames schema /\
  map fm_JSONTag (n_Fields nd) = memberNames schema /\
  (t_Kind schema <> ENUM ->
   Forall2 (fun t f => gqlTypeToGoType t = Ok (fm_Type f)
                       /\ fm_isNullable f = (tr_Kind t =? NULL) || isNil (tr_OfType t))
           (consultedTypes schema) (n_Fields nd)) /\
  (t_Kind schema = ENUM ->
   Forall (fun f => fm_Type f = t_Name schema /\ fm_isNullable f = false)
          (n_Fields nd)).
Proof.
  unfold NewNode, memberNames, consultedTypes. intros H.
  apply bind_Ok in H as (fields & Hf & [= <-]). cbn [n_Fields].
  destruct ((t_Kind schema =? OBJECT) || (t_Kind schema =? INTERFACE)
            || (t_Kind schema =? UNION)) eqn:Hobj.
  { pose proof (mapR_newFieldMeta_types _ _ _ _ Hf) as Hty.
    apply mapR_newFieldMeta in Hf as (Hn & Ht & _).
    split; [exact Hn|]. split; [exact Ht|]. split; [intros _; exact Hty|].
    intros He. rewrite He in Hobj. discriminate. }
  destruct (t_Kind schema =? INPUT_OBJECT) eqn:Hin.
  { pose proof (mapR_newFieldMeta_types _ _ _ _ Hf) as Hty.
    apply mapR_newFieldMeta in Hf as (Hn & Ht & _).
    split; [exact Hn|]. split; [exact Ht|]. split; [intros _; exact Hty|].
    intros He. rewrite He in Hin. discriminate. }
  destruct (t_Kind schema =? ENUM) eqn:Hen.
  { injection Hf as <-. apply Z.eqb_eq in Hen.
    split; [rewrite map_map; reflexivity|].
    split; [rewrite map_map; reflexivity|].
    split; [congruence|].
    intros _. apply Forall_fmap, Forall_true. intros v. split; reflexivity. }
  injection Hf as <-.
  split; [reflexivity|]. split; [reflexivity|]. split; [intros _; constructor|].
  intros He. rewrite He in Hen. discriminate.
Qed.

(** X5 on the enum of the test case [schema with enum type]. *)
Lemma NewNode_members_witness :
  map fm_Name [mkFieldMeta "ACTIVE" "Status" "ACTIVE" false false;
               mkFieldMeta "INACTIVE" "Status" "INACTIVE" false false]
  = ["ACTIVE"; "INACTIVE"].
Proof.
  apply (proj1 (NewNode_members
                  (mkType ENUM "Status" [] []
                          [mkEnumValue "ACTIVE"; mkEnumValue "INACTIVE"])
                  (mkNode "Status" ENUM
                          [mkFieldMeta "ACTIVE" "Status" "ACTIVE" false false;
                           mkFieldMeta "INACTIVE" "Status" "INACTIVE" false false]
                          [])
                  eq_refl)).
Defined.

(** ** The identifier exporter *)

Lemma append_nonempty_r (s v : string) : v <> EmptyString -> s +:+ v <> EmptyString.
Proof. destruct s; [exact id|discriminate]. Qed.

Lemma special_values_nonempty (kv : string * string) :
  In kv special -> snd kv <> EmptyString.
Proof.
  unfold special. cbn [In].
  intros [<-|[<-|[<-|[<-|[]]]]]; discriminate.
Qed.

Section ExporterFacts.
Variables ToLower ToUpper : string -> string.

(** A word is exported to the empty string only when it is empty. *)
Lemma capitalizeWord_empty (word : string) :
  capitalizeWord ToLower word = EmptyString <-> word = EmptyString.
Proof.
  split.
  - unfold capitalizeWord.
    destruct (find (fun kv => String.eqb (fst kv) word) special)
      as [kv|] eqn:Hexact.
    { intros H. apply find_some in Hexact as [Hin _].
      apply special_values_nonempty in Hin. contradiction. }
    destruct (existsb _ exceptions); [exact id|].
    destruct (find (fun kv => Nat.ltb _ _ && _) special)
      as [kv|] eqn:Hsuffix; [|exact id].
    intros H. apply find_some in Hsuffix as [Hin _].
    apply special_values_nonempty in Hin.
    apply append_nonempty_r in H; [contradiction|exact Hin].
  - intros ->. reflexivity.
Qed.

Lemma toUpper_is_Ok (s : string) :
  is_Ok (toUpper ToUpper s) <-> s <> EmptyString.
Proof.
  unfold is_Ok. destruct s; cbn.
  - split; [intros [a Ha]; discriminate|congruence].
  - split; [discriminate|intros _; eexists; reflexivity].
Qed.

Lemma capitalize_Abort (input : string) (e : abort) :
  capitalize ToLower ToUpper input = Abort e -> e = SliceOutOfRange.
Proof.
  unfold capitalize.
  destruct (String.eqb input EmptyString); [discriminate|].
  destruct (mapR _ _) as [words|e'] eqn:Hwords; cbn; [discriminate|].
  intros [= ->]. apply mapR_Abort in Hwords as (w & _ & Hw).
  unfold toUpper in Hw. destruct (capitalizeWord ToLower w); congruence.
Qed.

Lemma capitalize_is_Ok (input : string) :
  is_Ok (capitalize ToLower ToUpper input)
  <-> input = EmptyString \/ EmptyString ∉ Split "_"%char input.
Proof.
  unfold capitalize.
  destruct (String.eqb_spec input EmptyString) as [->|Hne].
  - split; [left; reflexivity|intros _; eexists; reflexivity].
  - rewrite bind_Ok_is_Ok, mapR_is_Ok, Forall_forall. split.
    + intros Hall. right. intros Hin. specialize (Hall _ Hin).
      apply toUpper_is_Ok in Hall. apply Hall. reflexivity.
    + intros [Heq|Hnot] w Hw; [contradiction|].
      apply toUpper_is_Ok. intros Hempty.
      apply (proj1 (capitalizeWord_empty w)) in Hempty. subst w.
      contradiction.
Qed.

(** X6. [capitalize] panics, by slicing an empty string, exactly on the
    non-empty inputs that have an empty word between, before or after
    underscores; a leading underscore is such an input.  It has no other
    failure. *)
Theorem capitalize_panics_iff :
  (forall input : string,
      is_Ok (capitalize ToLower ToUpper input)
      <-> input = EmptyString \/ EmptyString ∉ Split "_"%char input) /\
  (forall (input : string) (e : abort),
      capitalize ToLower ToUpper input = Abort e -> e = SliceOutOfRange) /\
  (forall s : string,
      capitalize ToLower ToUpper (String "_"%char s) = Abort SliceOutOfRange).
Proof.
  split; [exact capitalize_is_Ok|]. split; [exact capitalize_Abort|].
  intros s.
  destruct (capitalize ToLower ToUpper (String "_"%char s)) as [out|e] eqn:Hc.
  - exfalso. assert (is_Ok (capitalize ToLower ToUpper (String "_"%char s)))
      as H by (eexists; exact Hc).
    apply capitalize_is_Ok in H as [H|H]; [discriminate|].
    apply H. cbn. constructor.
  - rewrite (capitalize_Abort _ _ Hc). reflexivity.
Qed.
End ExporterFacts.

(** ** The code emitter, continued *)

Section EmitterSuccess.
Variables ToLower ToUpper : string -> string.

Lemma emitNode_is_Ok (nd : Node) :
  is_Ok (emitNode ToLower ToUpper nd)
  <-> supportedKind (n_Kind nd) = true /\
      Forall (fun f => is_Ok (capitalize ToLower ToUpper
                                         (emittedName ToLower (n_Kind nd) f)))
             (n_Fields nd).
Proof.
  destruct nd as [name kind fields children].
  unfold emitNode, supportedKind, emittedName, toGoStruct, toGoInterface, toGoEnum,
    structFieldLine.
  cbn [n_Kind n_Fields n_Name].
  assert (forall (g : FieldMeta -> string) (h : string -> FieldMeta -> string),
             is_Ok (mapR (fun f => capitalize ToLower ToUpper (g f)
                                     ≫= fun nm => Ok (h nm f)) fields)
             <-> Forall (fun f => is_Ok (capitalize ToLower ToUpper (g f))) fields)
    as Hlines.
  { intros g h. rewrite mapR_is_Ok. apply Forall_iff. intros f.
    apply bind_Ok_is_Ok. }
  destruct (Z.eqb_spec kind OBJECT) as [->|HO];
    [cbn; rewrite bind_Ok_is_Ok, (Hlines fm_Name); tauto|].
  destruct (Z.eqb_spec kind INPUT_OBJECT) as [->|HI];
    [cbn; rewrite bind_Ok_is_Ok, (Hlines fm_Name); tauto|].
  destruct (Z.eqb_spec kind UNION) as [->|HU];
    [cbn; rewrite bind_Ok_is_Ok, (Hlines fm_Name); tauto|].
  destruct (Z.eqb_spec kind INTERFACE) as [->|HF];
    [cbn; rewrite bind_Ok_is_Ok, (Hlines fm_Name); tauto|].
  destruct (Z.eqb_spec kind ENUM) as [->|HE].
  - cbn. rewrite bind_Ok_is_Ok, (Hlines (fun f => ToLower (fm_Name f))). tauto.
  - cbn. split; [intros [a Ha]; discriminate|intros [H _]; discriminate].
Qed.

Lemma emitNode_Abort (nd : Node) (e : abort) :
  emitNode ToLower ToUpper nd = Abort e ->
  e = SliceOutOfRange \/
  (e = UnsupportedType (n_Kind nd) /\ supportedKind (n_Kind nd) = false).
Proof.
  assert (forall (g : FieldMeta -> string) (h : string -> FieldMeta -> string)
                 (k : list string -> string),
             mapR (fun f => capitalize ToLower ToUpper (g f)
                              ≫= fun nm => Ok (h nm f)) (n_Fields nd)
             ≫= (fun lines => Ok (k lines)) = Abort e ->
             e = SliceOutOfRange) as Hlines.
  { intros g h k H.
    destruct (mapR _ (n_Fields nd)) as [lines|e'] eqn:Hm; cbn in H; [discriminate|].
    injection H as ->. apply mapR_Abort in Hm as (f & _ & Hf).
    destruct (capitalize ToLower ToUpper (g f)) as [nm|e'] eqn:Hc; cbn in Hf;
      [discriminate|].
    injection Hf as ->.
    exact (capitalize_Abort ToLower ToUpper _ _ Hc). }
  unfold emitNode, supportedKind, toGoStruct, toGoInterface, toGoEnum, structFieldLine.
  destruct ((n_Kind nd =? OBJECT) || (n_Kind nd =? INPUT_OBJECT)
            || (n_Kind nd =? UNION)) eqn:Hs;
    [intros H; left; exact (Hlines fm_Name _ _ H)|].
  destruct (n_Kind nd =? INTERFACE) eqn:Hi;
    [intros H; left; exact (Hlines fm_Name _ _ H)|].
  destruct (n_Kind nd =? ENUM) eqn:He;
    [intros H; left; exact (Hlines (fun f => ToLower (fm_Name f)) _ _ H)|].
  intros [= <-]. right. split; reflexivity.
Qed.

(** X7. [ToGoTypes] returns exactly when every name of the order is
    registered, the node under it is of a kind the emitter has a case for
    ([OBJECT], [INPUT_OBJECT], [UNION], [INTERFACE], [ENUM]) and all its field
    names can be exported; a single collected node of another kind (a scalar,
    say) makes the whole emission panic.  Its panics are the nil dereference
    of an unregistered name, the empty slice of the exporter and the explicit
    panic on an unsupported kind. *)
Theorem ToGoTypes_Ok_iff (n : Nodes) :
  (is_Ok (ToGoTypes ToLower ToUpper n)
   <-> Forall (fun k =>
                 exists nd, hashMap n !! k = Some nd /\
                            supportedKind (n_Kind nd) = true /\
                            Forall (fun f =>
                                      is_Ok (capitalize ToLower ToUpper
                                               (emittedName ToLower (n_Kind nd) f)))
                                   (n_Fields nd))
              (sortOrder n)) /\
  (forall e : abort,
      ToGoTypes ToLower ToUpper n = Abort e ->
      e = NilDereference \/ e = SliceOutOfRange \/
      exists k : TypeKind, e = UnsupportedType k /\ supportedKind k = false).
Proof.
  unfold ToGoTypes, ToGoTypes_out. split.
  - rewrite bind_Ok_is_Ok, mapR_is_Ok.
    apply Forall_iff. intros k.
    destruct (hashMap n !! k) as [nd|].
    + rewrite emitNode_is_Ok. split.
      * intros H. exists nd. tauto.
      * intros (nd' & [= <-] & H). exact H.
    + split; [intros [a Ha]; discriminate|intros (nd & Hnd & _); discriminate].
  - intros e H.
    destruct (mapR _ (sortOrder n)) as [out|e'] eqn:Hm; cbn in H; [discriminate|].
    injection H as ->. apply mapR_Abort in Hm as (k & _ & Hk).
    destruct (hashMap n !! k) as [nd|].
    + apply emitNode_Abort in Hk as [->|[-> Hs]]; [tauto|].
      right. right. eexists. split; [reflexivity|exact Hs].
    + injection Hk as <-. tauto.
Qed.
End EmitterSuccess.

(** ** The node graph, continued *)

(** X8. The two halves of a collection stay in step under [Collect]: the
    names of the order are exactly the registered keys, every node is stored
    under its own name and is one of the collected nodes, and the order is as
    long as the map is large. *)
Theorem collectAll_invariant (nds : list Node) :
  (forall k : string,
      k ∈ sortOrder (collectAll nds) <-> is_Some (hashMap (collectAll nds) !! k)) /\
  (forall (k : string) (nd : Node),
      hashMap (collectAll nds) !! k = Some nd -> n_Name nd = k /\ nd ∈ nds) /\
  length (sortOrder (collectAll nds)) = size (hashMap (collectAll nds)).
Proof.
  split; [apply collectAll_order_registered|]. split.
  - intros k nd Hnd. apply collectAll_lookup_elem in Hnd. tauto.
  - rewrite <- size_dom.
    replace (dom (hashMap (collectAll nds)))
      with (list_to_set (sortOrder (collectAll nds)) : gset string).
    + rewrite size_list_to_set; [reflexivity|].
      rewrite collectAll_sortOrder. apply NoDup_firstOccurrences.
    + apply set_eq. intros k.
      rewrite elem_of_list_to_set, elem_of_dom. apply collectAll_order_registered.
Qed.

Lemma filter_all (P : string -> Prop) `{!forall x, Decision (P x)} (l : list string) :
  (forall x, P x) -> filter P l = l.
Proof.
  intros HP. induction l as [|x l IH]; [reflexivity|].
  rewrite filter_cons, decide_True by apply HP. f_equal. exact IH.
Qed.

(** The child loop of [Link] appends, to the children it starts from, the
    registered field types it has not seen, in order of first occurrence. *)
Lemma linkFields_exact (hm : gmap string Node) (fields : list FieldMeta) :
  forall (seen : gset string) (children : list string),
    linkFields hm fields seen children
    = children
      ++ filter (fun t => t ∉ seen)
                (firstOccurrences
                   (filter (fun t => is_Some (hm !! t)) (map fm_Type fields))).
Proof.
  induction fields as [|f fields IH]; intros seen children;
    cbn [linkFields map].
  - cbn. rewrite app_nil_r. reflexivity.
  - rewrite filter_cons. destruct (hm !! fm_Type f) as [x|] eqn:Hx.
    + rewrite (decide_True (P := is_Some (Some x))) by (eexists; reflexivity).
      cbn [firstOccurrences].
      rewrite IH, filter_cons.
      rewrite <- (filter_firstOccurrences_cons (fun t => t ∉ seen)).
      assert (forall l : list string,
                 filter (fun t => t ∉ {[fm_Type f]} ∪ seen) l
                 = filter (fun t => (t ∉ seen) /\ t <> fm_Type f) l) as Hfilter.
      { intros l. apply list_filter_iff. intros t. set_solver. }
      rewrite Hfilter.
      destruct (decide (fm_Type f ∈ seen)) as [Hin|Hnot].
      * rewrite decide_False by tauto. reflexivity.
      * rewrite decide_True by exact Hnot. rewrite <- app_assoc. reflexivity.
    + rewrite (decide_False (P := is_Some None)); [apply IH|].
      intros [y Hy]. discriminate.
Qed.

Lemma markedFields_types (sel : string -> bool) (fields : list FieldMeta) :
  map fm_Type (markedFields sel fields) = map fm_Type fields.
Proof.
  unfold markedFields. rewrite map_map. apply map_ext. intros f.
  destruct (sel (fm_Type f)); reflexivity.
Qed.

Lemma Link_collectAll_keys (nds : list Node) (t : string) :
  is_Some (markedGraph (budget nds) (linked nds)
             (list_to_set (sortOrder (collectAll nds))) !! t)
  <-> is_Some (hashMap (collectAll nds) !! t).
Proof.
  rewrite Link_collectAll_lookup, collectAll_hashMap. apply fmap_is_Some.
Qed.

Lemma Link_collectAll_children (nds : list Node) (k : string) (nd : Node) :
  Forall freshNode nds ->
  markedGraph (budget nds) (linked nds)
              (list_to_set (sortOrder (collectAll nds))) !! k = Some nd ->
  n_Children nd
  = firstOccurrences
      (filter (fun t => is_Some (markedGraph (budget nds) (linked nds)
                                   (list_to_set (sortOrder (collectAll nds))) !! t))
              (map fm_Type (n_Fields nd))).
Proof.
  intros Hfresh Hnd. rewrite Link_collectAll_lookup in Hnd.
  destruct (firstNamed k nds) as [nd0|] eqn:Hnd0; [|discriminate].
  injection Hnd as <-. apply firstNamed_Some in Hnd0 as [Hin _].
  rewrite Forall_forall in Hfresh. apply Hfresh in Hin as [Hchildren _].
  unfold markNode, setFields, linkNode. cbn [n_Name n_Kind n_Fields n_Children].
  rewrite markedFields_types, Hchildren, linkFields_exact. cbn [app].
  etrans; [apply filter_all; intros t; apply not_elem_of_empty|].
  f_equal. apply list_filter_iff. intros t. symmetry.
  apply Link_collectAll_keys.
Qed.

(** X9. After [Link], the children of every node are exactly the registered
    types of its own fields, each once, in the order in which the fields
    first mention them. *)
Theorem Link_children_exact (nds : list Node) :
  Forall freshNode nds ->
  exists G : Nodes,
    Link (collectAll nds) = Ok G /\
    forall (k : string) (nd : Node),
      hashMap G !! k = Some nd ->
      n_Children nd
      = firstOccurrences
          (filter (fun t => is_Some (hashMap G !! t)) (map fm_Type (n_Fields nd))).
Proof.
  intros Hfresh. eexists. split; [apply Link_collectAll, Hfresh|].
  cbn [hashMap]. intros k nd Hnd.
  apply (Link_collectAll_children nds k nd Hfresh Hnd).
Qed.

(** X9 on the three-node cycle of [loopNodes]: P has the single child Q. *)
Lemma Link_children_exact_witness :
  exists G : Nodes,
    Link (collectAll loopNodes) = Ok G /\
    hashMap G !! "P"
    = Some (mkNode "P" OBJECT [mkFieldMeta "Q" "Q" "Q" true false] ["Q"]) /\
    ["Q"]
    = firstOccurrences
        (filter (fun t => is_Some (hashMap G !! t))
                (map fm_Type [mkFieldMeta "Q" "Q" "Q" true false])).
Proof.
  destruct (Link_children_exact loopNodes ltac:(repeat constructor))
    as (G & HG & Hchildren).
  assert (Ok G = Ok (match Link (collectAll loopNodes) with
                     | Ok g => g
                     | Abort _ => NewNodes
                     end)) as HG'.
  { rewrite <- HG. vm_compute. reflexivity. }
  injection HG' as ->.
  eexists. split; [exact HG|].
  assert (hashMap (match Link (collectAll loopNodes) with
                   | Ok g => g
                   | Abort _ => NewNodes
                   end) !! "P"
          = Some (mkNode "P" OBJECT [mkFieldMeta "Q" "Q" "Q" true false] ["Q"]))
    as Hnd by (vm_compute; reflexivity).
  split; [exact Hnd|]. exact (Hchildren "P" _ Hnd).
Defined.

(** X10 on the four nodes of [loopNodes], visited last to first. *)
Lemma linkChildrenIn_any_order_witness :
  linkChildrenIn ["R"; "Q"; "P"; "S"] (hashMap (collectAll loopNodes))
  = linkChildren (hashMap (collectAll loopNodes)).
Proof.
  apply linkChildrenIn_any_order.
  - apply (bool_decide_unpack _). vm_compute. exact I.
  - intros k. rewrite <- collectAll_order_registered.
    change (sortOrder (collectAll loopNodes)) with ["S"; "P"; "Q"; "R"].
    rewrite !elem_of_cons, !elem_of_nil. tauto.
Defined.

(** ** Link, continued *)

Lemma closedGraph_shape (hm hm' : gmap string Node) :
  sameShape hm hm' -> closedGraph hm -> closedGraph hm'.
Proof.
  intros Hsh Hclosed k nd' c Hnd' Hc.
  destruct (childOf_shape hm' hm k c (sameShape_sym _ _ Hsh)) as (nd & Hnd & Hin);
    [exists nd'; split; assumption|].
  destruct (Hclosed k nd c Hnd Hin) as [x Hx].
  specialize (Hsh c). rewrite Hx in Hsh.
  destruct (hm' !! c); [eexists; reflexivity|discriminate].
Qed.

Lemma linkChildren_closed_gen (hm : gmap string Node) :
  closedGraph hm -> closedGraph (linkChildren hm).
Proof.
  intros Hclosed k nd c. rewrite !linkChildren_lookup.
  destruct (hm !! k) as [nd0|] eqn:Hnd0; cbn; [|discriminate].
  intros [= <-]. cbn. intros H.
  apply linkFields_elem in H as [H|[Hreg _]].
  - destruct (Hclosed k nd0 c Hnd0 H) as [x ->]. eexists; reflexivity.
  - destruct Hreg as [x ->]. eexists; reflexivity.
Qed.

(** [Link] on a collection without dangling child whose order names
    registered nodes only. *)
Lemma Link_run (n : Nodes) :
  closedGraph (hashMap n) ->
  (forall o, o ∈ sortOrder n -> is_Some (hashMap n !! o)) ->
  Link n
  = Ok {| hashMap := markedGraph (S (size (hashMap n))) (linkChildren (hashMap n))
                                 (list_to_set (sortOrder n));
          sortOrder := sortOrder n |}.
Proof.
  intros Hclosed Hreg. unfold Link.
  assert (size (dom (linkChildren (hashMap n))) < S (size (hashMap n)))%nat as Hsize.
  { unfold linkChildren. rewrite size_dom, map_size_fmap. lia. }
  pose proof (markAll_run (S (size (hashMap n))) (linkChildren (hashMap n))
                          (linkChildren_closed_gen _ Hclosed) Hsize
                          (sortOrder n) ∅) as Hrun.
  rewrite markedGraph_empty, (right_id_L ∅ (∪)) in Hrun.
  rewrite Hrun; [reflexivity|].
  intros o Ho. rewrite linkChildren_lookup.
  destruct (Hreg o Ho) as [x ->]. eexists; reflexivity.
Qed.

Lemma fresh_closed (nds : list Node) :
  Forall freshNode nds -> closedGraph (hashMap (collectAll nds)).
Proof.
  intros Hfresh k nd c Hnd Hc. apply collectAll_lookup_elem in Hnd as [Hin _].
  rewrite Forall_forall in Hfresh. apply Hfresh in Hin as [Hchildren _].
  rewrite Hchildren in Hc. inversion Hc.
Qed.

(** X11. The flags that [Link] sets do not depend on the order in which its
    second pass visits the nodes, nor on a node being visited more than once:
    with any order that names exactly the registered nodes, [Link] leaves the
    same map. *)
Theorem Link_order_irrelevant (nds : list Node) (order : list string) :
  Forall freshNode nds ->
  (forall k : string, k ∈ order <-> k ∈ sortOrder (collectAll nds)) ->
  hashMap <$> Link {| hashMap := hashMap (collectAll nds); sortOrder := order |}
  = hashMap <$> Link (collectAll nds).
Proof.
  intros Hfresh Horder.
  rewrite (Link_collectAll nds Hfresh), Link_run.
  - cbn. f_equal. unfold budget, linked. f_equal.
    apply set_eq. intros k. rewrite !elem_of_list_to_set. apply Horder.
  - apply fresh_closed, Hfresh.
  - cbn. intros o Ho. apply collectAll_order_registered, Horder, Ho.
Qed.

(** X11 on [loopNodes], visited last to first and P twice. *)
Lemma Link_order_irrelevant_witness :
  hashMap <$> Link {| hashMap := hashMap (collectAll loopNodes);
                      sortOrder := ["R"; "P"; "Q"; "P"; "S"] |}
  = hashMap <$> Link (collectAll loopNodes).
Proof.
  apply Link_order_irrelevant.
  - repeat constructor.
  - intros k.
    change (sortOrder (collectAll loopNodes)) with ["S"; "P"; "Q"; "R"].
    rewrite !elem_of_cons, !elem_of_nil. tauto.
Defined.

(** X13. [Link] is not meant to run twice: a second run appends the children
    of every node to its [Children] once more. *)
Theorem Link_twice_duplicates_children (nds : list Node) :
  Forall freshNode nds ->
  exists G G2 : Nodes,
    Link (collectAll nds) = Ok G /\
    Link G = Ok G2 /\
    forall (k : string) (nd : Node),
      hashMap G !! k = Some nd ->
      exists nd2 : Node,
        hashMap G2 !! k = Some nd2 /\
        n_Children nd2 = n_Children nd ++ n_Children nd.
Proof.
  intros Hfresh. eexists. eexists.
  split; [apply Link_collectAll, Hfresh|].
  pose proof (markedGraph_shape (budget nds) (linked nds)
                (list_to_set (sortOrder (collectAll nds)))) as Hsh.
  split.
  - apply Link_run; cbn [hashMap sortOrder].
    + eapply closedGraph_shape; [exact Hsh|apply linked_closed, Hfresh].
    + intros o Ho. apply Link_collectAll_keys, collectAll_order_registered, Ho.
  - cbn [hashMap sortOrder]. intros k nd Hnd.
    rewrite markedGraph_lookup, linkChildren_lookup, Hnd.
    cbn [fmap option_fmap option_map].
    eexists. split; [reflexivity|].
    pose proof (staged_shape
                  (S (size (markedGraph (budget nds) (linked nds)
                              (list_to_set (sortOrder (collectAll nds))))))
                  (linkChildren (markedGraph (budget nds) (linked nds)
                                   (list_to_set (sortOrder (collectAll nds)))))
                  (list_to_set (sortOrder (collectAll nds))) k
                  (linkNode (markedGraph (budget nds) (linked nds)
                               (list_to_set (sortOrder (collectAll nds)))) nd))
      as Hst.
    injection Hst as _ ->. cbn [linkNode n_Children].
    rewrite linkFields_exact. f_equal.
    etrans; [apply filter_all; intros t; apply not_elem_of_empty|].
    symmetry. apply (Link_collectAll_children nds k nd Hfresh Hnd).
Qed.

(** X13 on [loopNodes]: after a second [Link] the node Q has its child R
    twice. *)
Lemma Link_twice_duplicates_children_witness :
  exists G G2 : Nodes,
    Link (collectAll loopNodes) = Ok G /\
    Link G = Ok G2 /\
    (n_Children <$> hashMap G !! "Q") = Some ["R"] /\
    (n_Children <$> hashMap G2 !! "Q") = Some ["R"; "R"].
Proof.
  destruct (Link_twice_duplicates_children loopNodes ltac:(repeat constructor))
    as (G & G2 & HG & HG2 & Hdup).
  exists G, G2. split; [exact HG|]. split; [exact HG2|].
  assert (hashMap G !! "Q"
          = Some (mkNode "Q" OBJECT [mkFieldMeta "R" "R" "R" true false] ["R"]))
    as Hnd.
  { assert (Ok G = Ok (match Link (collectAll loopNodes) with
                       | Ok g => g
                       | Abort _ => NewNodes
                       end)) as HG'.
    { rewrite <- HG. vm_compute. reflexivity. }
    injection HG' as HG'. rewrite HG'. vm_compute. reflexivity. }
  destruct (Hdup "Q" _ Hnd) as (nd2 & Hnd2 & Hcs).
  rewrite Hnd, Hnd2. cbn [fmap option_fmap option_map n_Children].
  split; [reflexivity|]. rewrite Hcs. reflexivity.
Defined.

Lemma mapR_markedFields {B} (g : FieldMeta -> result B) (sel : string -> bool)
      (fields : list FieldMeta) :
  (forall f, g (setCycle f) = g f) ->
  mapR g (markedFields sel fields) = mapR g fields.
Proof.
  intros Hg. unfold markedFields. induction fields as [|f fields IH]; cbn;
    [reflexivity|].
  rewrite IH. destruct (sel (fm_Type f)); [rewrite Hg|]; reflexivity.
Qed.

Section LinkAndEmit.
Variables ToLower ToUpper : string -> string.

(** X12. [Link] does not change the text of interface and enum declarations:
    their emitters read neither the flags nor the children, so the node
    stored after [Link] is emitted exactly as the node that was collected. *)
Theorem Link_keeps_interface_and_enum_text (nds : list Node) :
  Forall freshNode nds ->
  exists G : Nodes,
    Link (collectAll nds) = Ok G /\
    forall (k : string) (nd0 : Node),
      hashMap (collectAll nds) !! k = Some nd0 ->
      n_Kind nd0 = INTERFACE \/ n_Kind nd0 = ENUM ->
      exists nd : Node,
        hashMap G !! k = Some nd /\
        emitNode ToLower ToUpper nd = emitNode ToLower ToUpper nd0.
Proof.
  intros Hfresh. eexists. split; [apply Link_collectAll, Hfresh|].
  cbn [hashMap]. intros k nd0 Hnd0 Hkind.
  rewrite Link_collectAll_lookup. rewrite collectAll_hashMap in Hnd0.
  rewrite Hnd0. cbn [fmap option_fmap option_map].
  eexists. split; [reflexivity|].
  unfold emitNode, markNode, setFields, linkNode.
  cbn [n_Name n_Kind n_Fields n_Children].
  destruct Hkind as [-> | ->]; cbn [Z.eqb orb INTERFACE ENUM OBJECT INPUT_OBJECT UNION
                                    Pos.eqb].
  - unfold toGoInterface. cbn [n_Name n_Fields].
    rewrite mapR_markedFields; reflexivity.
  - unfold toGoEnum. cbn [n_Name n_Fields].
    rewrite mapR_markedFields; reflexivity.
Qed.
End LinkAndEmit.

(** X12 on the interface of [interfaceNodes]. *)
Lemma Link_keeps_interface_and_enum_text_witness :
  exists (G : Nodes) (nd : Node),
    Link (collectAll interfaceNodes) = Ok G /\
    hashMap G !! "User" = Some nd /\
    emitNode ToLowerASCII ToUpperASCII nd
    = Ok ("type User interface {" +:+ LF
          +:+ TAB +:+ "ID() string" +:+ LF
          +:+ TAB +:+ "Name() string" +:+ LF
          +:+ "}" +:+ LF).
Proof.
  destruct (Link_keeps_interface_and_enum_text ToLowerASCII ToUpperASCII
              interfaceNodes ltac:(repeat constructor)) as (G & HG & Hkeep).
  destruct (Hkeep "User"
              (mkNode "User" INTERFACE
                      [mkFieldMeta "id" "string" "id" false true;
                       mkFieldMeta "name" "string" "name" false true] []))
    as (nd & Hnd & Hemit); [vm_compute; reflexivity|left; reflexivity|].
  exists G, nd.
  split; [exact HG|]. split; [exact Hnd|].
  rewrite Hemit. vm_compute. reflexivity.
Defined.

(** ** The catalogue of field types *)

(** [TestGetIntrospectionTypes]. *)
Example test_GetIntrospectionTypes :
  GetIntrospectionTypes catalogueSchema = catalogueExpected.
Proof. vm_compute. reflexivity. Qed.

Lemma parseField_entryOf (m : gmap string TypeRef) (ft : TypeRef) :
  parseField m ft
  = match entryOf ft with
    | Some kv => <[fst kv := snd kv]> m
    | None => m
    end.
Proof.
  unfold parseField, entryOf. destruct (tr_OfType ft) as [inner|].
  - destruct (negb (String.eqb (tr_Name inner) EmptyString)); [reflexivity|].
    destruct (negb (String.eqb (tr_Name ft) EmptyString)); reflexivity.
  - destruct (negb (String.eqb (tr_Name ft) EmptyString)); reflexivity.
Qed.

Lemma foldl_map {A B C} (g : C -> B -> C) (h : A -> B) (l : list A) (c : C) :
  foldl (fun m x => g m (h x)) c l = foldl g c (map h l).
Proof. revert c. induction l as [|x l IH]; intros c; cbn; [reflexivity|apply IH]. Qed.

(** The catalogue is one fold of [parseField] over the visited references. *)
Lemma GetIntrospectionTypes_fold (schema : IntrospectionSchema) :
  GetIntrospectionTypes schema = foldl parseField ∅ (fieldTypes schema).
Proof.
  unfold GetIntrospectionTypes, fieldTypes.
  generalize (∅ : gmap string TypeRef) as m.
  induction (s_Types schema) as [|t types IH]; intros m; cbn [foldl flat_map];
    [reflexivity|].
  rewrite IH, !foldl_app. unfold parseType.
  rewrite (foldl_map parseField f_Type), (foldl_map parseField if_Type).
  reflexivity.
Qed.

Lemma parseField_lookup (m : gmap string TypeRef) (ft : TypeRef) (k : string) :
  parseField m ft !! k
  = match valueFor k ft with
    | Some v => Some v
    | None => m !! k
    end.
Proof.
  rewrite parseField_entryOf. unfold valueFor.
  destruct (entryOf ft) as [[k' v]|]; cbn [fst snd]; [|reflexivity].
  destruct (String.eqb_spec k' k) as [->|Hne].
  - apply lookup_insert_eq.
  - apply lookup_insert_ne. exact Hne.
Qed.

Lemma foldl_parseField_lookup (k : string) (l : list TypeRef) :
  forall m : gmap string TypeRef,
    foldl parseField m l !! k
    = match last (omap (valueFor k) l) with
      | Some v => Some v
      | None => m !! k
      end.
Proof.
  induction l as [|ft l IH] using rev_ind; intros m; [reflexivity|].
  rewrite foldl_app. cbn [foldl]. rewrite parseField_lookup, omap_app.
  change (omap (valueFor k) [ft])
    with (match valueFor k ft with Some v => [v] | None => [] end).
  destruct (valueFor k ft) as [v|].
  - rewrite last_snoc. reflexivity.
  - rewrite app_nil_r. apply IH.
Qed.

(** X14. The catalogue is built left to right and the last writer wins: the
    value under a key is the one written for the last visited reference
    (types in order, fields before input fields) that writes under that key,
    and a key that no reference writes is absent. *)
Theorem GetIntrospectionTypes_lookup (schema : IntrospectionSchema) (k : string) :
  GetIntrospectionTypes schema !! k = last (omap (valueFor k) (fieldTypes schema)).
Proof.
  rewrite GetIntrospectionTypes_fold, foldl_parseField_lookup, lookup_empty.
  destruct (last _); reflexivity.
Qed.

Lemma valueFor_Some (k : string) (ft v : TypeRef) :
  valueFor k ft = Some v ->
  k <> EmptyString /\
  ((tr_OfType ft = Some v /\
    (tr_Name v = k \/ (tr_Name v = EmptyString /\ tr_Name ft = k))) \/
   (tr_OfType ft = None /\ v = ft /\ tr_Name ft = k)).
Proof.
  unfold valueFor, entryOf. destruct (tr_OfType ft) as [inner|].
  - destruct (String.eqb_spec (tr_Name inner) EmptyString) as [Hi|Hi]; cbn.
    + destruct (String.eqb_spec (tr_Name ft) EmptyString) as [Hf|Hf]; cbn;
        [discriminate|].
      destruct (String.eqb_spec (tr_Name ft) k) as [<-|]; [|discriminate].
      intros [= <-]. split; [exact Hf|]. left. split; [reflexivity|]. right. tauto.
    + destruct (String.eqb_spec (tr_Name inner) k) as [<-|]; [|discriminate].
      intros [= <-]. split; [exact Hi|]. left. split; [reflexivity|]. left. reflexivity.
  - destruct (String.eqb_spec (tr_Name ft) EmptyString) as [Hf|Hf]; cbn;
      [discriminate|].
    destruct (String.eqb_spec (tr_Name ft) k) as [<-|]; [|discriminate].
    intros [= <-]. split; [exact Hf|]. right. tauto.
Qed.

(** X15. What the catalogue holds: no entry has the empty key; an entry is
    either a visited reference that wraps nothing, stored under its own name,
    or the reference directly wrapped by a visited reference, stored under its
    own name or, when it has none, under the name of its wrapper.  Deeper
    levels of wrapping are never looked at. *)
Theorem GetIntrospectionTypes_entries
        (schema : IntrospectionSchema) (k : string) (v : TypeRef) :
  GetIntrospectionTypes schema !! k = Some v ->
  k <> EmptyString /\
  exists ft : TypeRef,
    ft ∈ fieldTypes schema /\
    ((tr_OfType ft = Some v /\
      (tr_Name v = k \/ (tr_Name v = EmptyString /\ tr_Name ft = k))) \/
     (tr_OfType ft = None /\ v = ft /\ tr_Name ft = k)).
Proof.
  rewrite GetIntrospectionTypes_fold, foldl_parseField_lookup, lookup_empty.
  destruct (last (omap (valueFor k) (fieldTypes schema))) as [v'|] eqn:Hlast;
    [|discriminate].
  intros [= ->]. apply last_Some_elem_of in Hlast.
  apply list_elem_of_omap in Hlast as (ft & Hft & Hv).
  apply valueFor_Some in Hv as [Hk Hv].
  split; [exact Hk|]. exists ft. split; [exact Hft|exact Hv].
Qed.

(** X15 on the entry [Boolean] of the test schema, written for the input
    field [input1], whose wrapped reference has no name. *)
Lemma GetIntrospectionTypes_entries_witness :
  "Boolean" <> EmptyString /\
  exists ft : TypeRef,
    ft ∈ fieldTypes catalogueSchema /\
    ((tr_OfType ft = Some (mkTypeRef SCALAR EmptyString None) /\
      (tr_Name (mkTypeRef SCALAR EmptyString None) = "Boolean" \/
       (tr_Name (mkTypeRef SCALAR EmptyString None) = EmptyString /\
        tr_Name ft = "Boolean"))) \/
     (tr_OfType ft = None /\ mkTypeRef SCALAR EmptyString None = ft /\
      tr_Name ft = "Boolean")).
Proof.
  apply (GetIntrospectionTypes_entries catalogueSchema "Boolean"
           (mkTypeRef SCALAR EmptyString None)).
  vm_compute. reflexivity.
Defined.

(** ** Cycle detection: the exact answer *)

(** After a [false] answer about a child that is not an object node [seen]
    is as before; after one about an object node it holds the receiver. *)
Lemma hasCycleWith_false_seen (fuel : nat) (hm : gmap string Node) (n c : string)
      (seen s' : gset string) :
  hasCycleWith fuel hm n c seen = Ok (false, s') ->
  (n ∉ seen) /\
  exists nd, hm !! c = Some nd /\
             (isObjectKind (n_Kind nd) = false -> s' = seen) /\
             (isObjectKind (n_Kind nd) = true -> n ∈ s').
Proof.
  destruct fuel as [|fuel]; cbn; [discriminate|].
  destruct (decide (n ∈ seen)) as [|Hnot]; [discriminate|].
  destruct (hm !! c) as [nd|]; [|discriminate].
  rewrite isObjectKind_test.
  destruct (isObjectKind (n_Kind nd)) eqn:Hkind; cbn.
  - intros H. split; [exact Hnot|]. exists nd. split; [reflexivity|].
    split; [congruence|]. intros _.
    apply cycleLoop_growing in H; [set_solver|apply hasCycleWith_growing].
  - intros [= <-]. split; [exact Hnot|]. exists nd. split; [reflexivity|].
    split; [reflexivity|congruence].
Qed.

Lemma cycleLoop_false_quiet (fuel : nat) (hm : gmap string Node) (x : string) :
  (forall c seen s',
      hasCycleWith fuel hm x c seen = Ok (false, s') ->
      quiet hm ({[x]} ∪ seen) c) ->
  forall (cs : list string) (seen s' : gset string),
    cycleLoop (hasCycleWith fuel hm x) cs seen = Ok (false, s') ->
    cs = [] \/
    ((x ∉ seen) /\
     exists cs0 y, cs = cs0 ++ [y] /\ Forall (plainNode hm) cs0 /\
                   quiet hm ({[x]} ∪ seen) y).
Proof.
  intros IH. induction cs as [|c cs IHcs]; intros seen s'; cbn [cycleLoop];
    [left; reflexivity|].
  destruct (hasCycleWith fuel hm x c seen) as [[[] s1]|e] eqn:Hc;
    [discriminate| |discriminate].
  intros H. right.
  destruct (hasCycleWith_false_seen _ _ _ _ _ _ Hc) as (Hx & nd & Hnd & Hplain & Hobj).
  split; [exact Hx|].
  destruct (IHcs s1 s' H) as [->|(Hx1 & cs0 & y & -> & Hcs0 & Hy)].
  - exists [], c. split; [reflexivity|]. split; [constructor|]. eapply IH, Hc.
  - destruct (isObjectKind (n_Kind nd)) eqn:Hkind.
    + exfalso. apply Hx1, Hobj. reflexivity.
    + rewrite (Hplain eq_refl) in *.
      exists (c :: cs0), y. split; [reflexivity|].
      split; [|exact Hy]. constructor; [|exact Hcs0]. exists nd. tauto.
Qed.

(** A [false] answer is given only on a quiet child. *)
Lemma hasCycleWith_false_quiet (hm : gmap string Node) (fuel : nat) :
  forall (n x : string) (seen s' : gset string),
    hasCycleWith fuel hm n x seen = Ok (false, s') ->
    quiet hm ({[n]} ∪ seen) x.
Proof.
  induction fuel as [|fuel IH]; intros n x seen s'; cbn; [discriminate|].
  destruct (decide (n ∈ seen)) as [|Hnot]; [discriminate|].
  destruct (hm !! x) as [nd|] eqn:Hnd; [|discriminate].
  rewrite isObjectKind_test.
  destruct (isObjectKind (n_Kind nd)) eqn:Hkind; cbn.
  - intros H.
    destruct (cycleLoop_false_quiet fuel hm x (IH x) _ _ _ H)
      as [Hnil|(Hx & cs0 & y & Hcs & Hcs0 & Hy)].
    + eapply quiet_leaf; eassumption.
    + eapply quiet_chain; eassumption.
  - intros _. apply quiet_plain. exists nd. tauto.
Qed.

Lemma cycleLoop_plain_prefix call (cs : list string) (y : string) (seen : gset string) :
  (forall c, c ∈ cs -> call c seen = Ok (false, seen)) ->
  cycleLoop call (cs ++ [y]) seen = cycleLoop call [y] seen.
Proof.
  induction cs as [|c cs IH]; intros Hcs; [reflexivity|].
  cbn [app cycleLoop]. rewrite (Hcs c) by constructor.
  apply IH. intros c' Hc'. apply Hcs. constructor. exact Hc'.
Qed.

Lemma hasCycleWith_plain (fuel : nat) (hm : gmap string Node) (n c : string)
      (seen : gset string) :
  plainNode hm c -> n ∉ seen ->
  hasCycleWith (S fuel) hm n c seen = Ok (false, seen).
Proof.
  intros (nd & Hnd & Hkind) Hnot. cbn.
  rewrite decide_False by exact Hnot.
  rewrite Hnd, isObjectKind_test, Hkind. reflexivity.
Qed.

(** On a quiet child the answer is never [true]. *)
Lemma quiet_not_true (hm : gmap string Node) (seen0 : gset string) (x : string) :
  quiet hm seen0 x ->
  forall (fuel : nat) (n : string) (seen s' : gset string),
    seen0 = {[n]} ∪ seen -> n ∉ seen ->
    hasCycleWith fuel hm n x seen <> Ok (true, s').
Proof.
  induction 1 as [seen0 x Hplain|seen0 x nd Hnd Hkind Hcs
                  |seen0 x nd cs y Hnd Hkind Hcs Hplain Hx _ IH];
    intros fuel n seen s' -> Hnot.
  - destruct fuel as [|fuel]; [discriminate|].
    rewrite hasCycleWith_plain by assumption. discriminate.
  - destruct fuel as [|fuel]; cbn; [discriminate|].
    rewrite decide_False by exact Hnot.
    rewrite Hnd, isObjectKind_test, Hkind, Hcs. discriminate.
  - destruct fuel as [|fuel]; cbn; [discriminate|].
    rewrite decide_False by exact Hnot.
    rewrite Hnd, isObjectKind_test, Hkind, Hcs. cbn [negb].
    destruct fuel as [|fuel].
    + destruct cs; cbn; discriminate.
    + rewrite cycleLoop_plain_prefix.
      * cbn [cycleLoop].
        specialize (IH (S fuel) x ({[n]} ∪ seen)).
        destruct (hasCycleWith (S fuel) hm x y ({[n]} ∪ seen)) as [[[] s1]|e];
          [|discriminate|discriminate].
        exfalso. exact (IH s1 eq_refl Hx eq_refl).
      * intros c Hc. apply hasCycleWith_plain; [|exact Hx].
        rewrite Forall_forall in Hplain. apply Hplain, Hc.
Qed.

Lemma plainNode_shape (hm hm' : gmap string Node) (x : string) :
  sameShape hm hm' -> plainNode hm x -> plainNode hm' x.
Proof.
  intros Hsh (nd & Hnd & Hkind). specialize (Hsh x). rewrite Hnd in Hsh.
  destruct (hm' !! x) as [nd'|] eqn:Hnd'; cbn in Hsh; [|discriminate].
  injection Hsh as Hk _. exists nd'. split; [exact Hnd'|congruence].
Qed.

Lemma quiet_shape (hm hm' : gmap string Node) (seen : gset string) (x : string) :
  sameShape hm hm' -> quiet hm seen x -> quiet hm' seen x.
Proof.
  intros Hsh. induction 1 as [seen x Hplain|seen x nd Hnd Hkind Hcs
                              |seen x nd cs y Hnd Hkind Hcs Hplain Hx _ IH].
  - apply quiet_plain. eapply plainNode_shape; eassumption.
  - pose proof (Hsh x) as Hx. rewrite Hnd in Hx.
    destruct (hm' !! x) as [nd'|] eqn:Hnd'; cbn in Hx; [|discriminate].
    injection Hx as Hk Hc. eapply quiet_leaf; [exact Hnd'|congruence|congruence].
  - pose proof (Hsh x) as Hx'. rewrite Hnd in Hx'.
    destruct (hm' !! x) as [nd'|] eqn:Hnd'; cbn in Hx'; [|discriminate].
    injection Hx' as Hk Hc.
    apply (quiet_chain hm' seen x nd' cs y);
      [exact Hnd'|congruence|congruence| |exact Hx|exact IH].
    eapply Forall_impl; [exact Hplain|]. intros c. apply plainNode_shape, Hsh.
Qed.

(** X16. Exactly which fields [Link] flags.  A field of the node N is flagged
    if and only if its type is a child C of N that is not quiet behind N:
    that is, unless C is no object node, or the object nodes below C form a
    chain that ends, in which every node has its only object child last among
    its children, and which returns neither to N nor into itself. *)
Theorem flagged_iff_not_quiet (nds : list Node) :
  Forall freshNode nds ->
  exists G : Nodes,
    Link (collectAll nds) = Ok G /\
    forall (k : string) (nd : Node) (f : FieldMeta),
      hashMap G !! k = Some nd -> f ∈ n_Fields nd ->
      (fm_hasCycle f = true
       <-> fm_Type f ∈ n_Children nd /\ ~ quiet (hashMap G) {[k]} (fm_Type f)).
Proof.
  intros Hfresh. eexists. split; [apply Link_collectAll, Hfresh|].
  cbn [hashMap]. intros k nd f Hnd Hf.
  pose proof (markedGraph_shape (budget nds) (linked nds)
                (list_to_set (sortOrder (collectAll nds)))) as Hsh.
  rewrite (Link_collectAll_flag nds k nd f Hfresh Hnd Hf), cyclicChild_true.
  assert (fm_Type f ∈ n_Children nd ->
          is_Ok (hasCycleWith (budget nds) (linked nds) k (fm_Type f) ∅)) as Hrun.
  { intros Hchild.
    apply (hasCycleWith_total (linked nds) (linked_closed nds Hfresh)).
    - pose proof (Hsh k) as Hk. rewrite Hnd in Hk.
      destruct (linked nds !! k); [eexists; reflexivity|discriminate].
    - destruct (childOf_shape _ _ k (fm_Type f) (sameShape_sym _ _ Hsh))
        as (nd1 & Hnd1 & Hin1); [exists nd; split; assumption|].
      eapply (linked_closed nds Hfresh); eassumption.
    - rewrite difference_empty_L. apply linked_size. }
  split.
  - intros (Hchild & s & Hs). split; [exact Hchild|]. intros Hq.
    apply (quiet_shape _ (linked nds)) in Hq; [|apply sameShape_sym, Hsh].
    apply (quiet_not_true _ _ _ Hq (budget nds) k ∅ s);
      [set_solver|set_solver|exact Hs].
  - intros (Hchild & Hq). split; [exact Hchild|].
    destruct (Hrun Hchild) as [[[] s] Hs]; [eexists; exact Hs|].
    exfalso. apply Hq. apply (quiet_shape (linked nds)); [exact Hsh|].
    apply hasCycleWith_false_quiet in Hs.
    replace ({[k]} ∪ ∅ : gset string) with ({[k]} : gset string) in Hs
      by set_solver.
    exact Hs.
Qed.

(** X16 on the graph A -> B, B -> C, B -> D: B is not quiet behind A, its
    first child being an object node. *)
Lemma flagged_iff_not_quiet_witness :
  Link (collectAll treeNodes) = Ok treeGraph /\
  ~ quiet (hashMap treeGraph) {["A"]} "B".
Proof.
  destruct (flagged_iff_not_quiet treeNodes ltac:(repeat constructor))
    as (G & HG & Hiff).
  assert (G = treeGraph) as ->.
  { assert (Ok G = Ok treeGraph) as HG'.
    { rewrite <- HG. vm_compute. reflexivity. }
    injection HG' as HG'. exact HG'. }
  split; [exact HG|].
  apply (Hiff "A" (mkNode "A" OBJECT [mkFieldMeta "B" "B" "B" true false] ["B"])
              (mkFieldMeta "B" "B" "B" true false)).
  - vm_compute. reflexivity.
  - cbn. constructor.
  - reflexivity.
Defined.

(** ** The identifier exporter on ASCII text *)

Lemma mapBytes_app (f : ascii -> ascii) (s1 s2 : string) :
  mapBytes f (s1 +:+ s2) = mapBytes f s1 +:+ mapBytes f s2.
Proof.
  induction s1 as [|c s1 IH]; [reflexivity|].
  change (String (f c) (mapBytes f (s1 +:+ s2))
          = String (f c) (mapBytes f s1 +:+ mapBytes f s2)).
  rewrite IH. reflexivity.
Qed.

Lemma mapBytes_length (f : ascii -> ascii) (s : string) :
  String.length (mapBytes f s) = String.length s.
Proof. induction s as [|c s IH]; cbn; [reflexivity|]. rewrite IH. reflexivity. Qed.

Lemma mapBytes_substring (f : ascii -> ascii) (s : string) :
  forall n m : nat, substring n m (mapBytes f s) = mapBytes f (substring n m s).
Proof.
  induction s as [|c s IH]; intros n m.
  - destruct n, m; reflexivity.
  - destruct n as [|n]; cbn.
    + destruct m as [|m]; [reflexivity|]. cbn. rewrite IH. reflexivity.
    + apply IH.
Qed.

Lemma substring_full (s : string) : substring 0 (String.length s) s = s.
Proof. induction s as [|c s IH]; cbn; [reflexivity|]. rewrite IH. reflexivity. Qed.

Lemma substring_split (s : string) :
  forall n : nat,
    (n <= String.length s)%nat ->
    s = substring 0 n s +:+ substring n (String.length s - n) s.
Proof.
  induction s as [|c s IH]; intros n Hn.
  - destruct n; [reflexivity|cbn in Hn; lia].
  - destruct n as [|n].
    + rewrite Nat.sub_0_r, substring_full. reflexivity.
    + cbn in Hn. cbn [substring String.length Nat.sub].
      change (String c s = String c (substring 0 n s
                                     +:+ substring n (String.length s - n) s)).
      f_equal. apply IH. lia.
Qed.

Lemma asciiLower_asciiUpper (c : ascii) : asciiLower (asciiUpper c) = asciiLower c.
Proof. destruct c as [[] [] [] [] [] [] [] []]; reflexivity. Qed.

Lemma special_lower (kv : string * string) :
  In kv special -> ToLowerASCII (snd kv) = fst kv.
Proof.
  unfold special. cbn [In]. intros [<-|[<-|[<-|[<-|[]]]]]; reflexivity.
Qed.

(** Exporting a word changes the case of its bytes only. *)
Lemma capitalizeWord_lower (word : string) :
  ToLowerASCII (capitalizeWord ToLowerASCII word) = ToLowerASCII word.
Proof.
  unfold capitalizeWord.
  destruct (find (fun kv => String.eqb (fst kv) word) special) as [kv|] eqn:Hexact.
  { apply find_some in Hexact as [Hin Heq]. apply String.eqb_eq in Heq.
    rewrite (special_lower kv Hin), Heq.
    destruct Hin as [<-|[<-|[<-|[<-|[]]]]]; subst word; reflexivity. }
  destruct (existsb _ exceptions); [reflexivity|].
  destruct (find (fun kv => Nat.ltb _ _ && _) special) as [kv|] eqn:Hsuffix;
    [|reflexivity].
  apply find_some in Hsuffix as [Hin Hand].
  apply andb_true_iff in Hand as [Hlen Hsuf].
  apply Nat.ltb_lt in Hlen. unfold hasSuffix, HasSuffix in Hsuf.
  apply andb_true_iff in Hsuf as [_ Hsuf]. apply String.eqb_eq in Hsuf.
  pose proof (special_lower kv Hin) as Hv.
  unfold ToLowerASCII in *.
  rewrite mapBytes_length in Hsuf.
  rewrite mapBytes_app, <- mapBytes_substring, Hv.
  etrans; [|symmetry;
            apply (substring_split (mapBytes asciiLower word)
                     (String.length word - String.length (fst kv)));
            rewrite mapBytes_length; lia].
  f_equal. rewrite mapBytes_length.
  replace (String.length word - (String.length word - String.length (fst kv)))%nat
    with (String.length (fst kv)) by lia.
  symmetry. exact Hsuf.
Qed.

Lemma toUpper_lower (s out : string) :
  toUpper ToUpperASCII s = Ok out -> ToLowerASCII out = ToLowerASCII s.
Proof.
  destruct s as [|c s]; cbn [toUpper]; [discriminate|]. intros [= <-].
  unfold ToLowerASCII, ToUpperASCII.
  change (mapBytes asciiUpper (String c EmptyString) +:+ s)
    with (String (asciiUpper c) s).
  cbn [mapBytes]. rewrite asciiLower_asciiUpper. reflexivity.
Qed.

Lemma Split_nonempty (sep : ascii) (s : string) : Split sep s <> [].
Proof.
  destruct s as [|c s]; cbn; [discriminate|].
  destruct (Ascii.eqb c sep); [discriminate|].
  destruct (Split sep s); discriminate.
Qed.

Lemma concat_empty_cons (x : string) (xs : list string) :
  String.concat EmptyString (x :: xs) = x +:+ String.concat EmptyString xs.
Proof.
  destruct xs as [|y ys]; cbn [String.concat].
  - clear. induction x as [|c x IH]; [reflexivity|].
    change (String c x = String c (x +:+ EmptyString)). rewrite <- IH. reflexivity.
  - reflexivity.
Qed.

(** Joining the words of a split drops the separators. *)
Lemma concat_Split (sep : ascii) (s : string) :
  String.concat EmptyString (Split sep s) = dropByte sep s.
Proof.
  induction s as [|c s IH]; [reflexivity|].
  cbn [Split dropByte]. destruct (Ascii.eqb c sep).
  - rewrite concat_empty_cons. exact IH.
  - pose proof (Split_nonempty sep s) as Hne.
    destruct (Split sep s) as [|w ws]; [contradiction|].
    rewrite concat_empty_cons in *.
    change (String c (w +:+ String.concat EmptyString ws) = String c (dropByte sep s)).
    rewrite IH. reflexivity.
Qed.

Lemma mapR_lower (l : list string) (words : list string) :
  mapR (fun word => toUpper ToUpperASCII (capitalizeWord ToLowerASCII word)) l
  = Ok words ->
  ToLowerASCII (String.concat EmptyString words)
  = ToLowerASCII (String.concat EmptyString l).
Proof.
  intros H. apply mapR_Ok_Forall2 in H.
  induction H as [|w w' l words Hw _ IH]; [reflexivity|].
  rewrite !concat_empty_cons. unfold ToLowerASCII in *.
  rewrite !mapBytes_app, IH. f_equal.
  apply toUpper_lower in Hw. unfold ToLowerASCII in Hw. rewrite Hw.
  apply capitalizeWord_lower.
Qed.

(** X3. On ASCII text [capitalize] changes nothing but the case of letters
    and the underscores, which it drops: the exported name, lower-cased, is
    the input without its underscores, lower-cased; it has as many bytes as
    the input has bytes other than underscores. *)
Theorem capitalize_keeps_letters (input out : string) :
  capitalize ToLowerASCII ToUpperASCII input = Ok out ->
  ToLowerASCII out = ToLowerASCII (dropByte "_"%char input) /\
  String.length out = String.length (dropByte "_"%char input).
Proof.
  intros H.
  assert (ToLowerASCII out = ToLowerASCII (dropByte "_"%char input)) as Hlower.
  { unfold capitalize in H.
    destruct (String.eqb_spec input EmptyString) as [->|Hne].
    - injection H as <-. reflexivity.
    - apply bind_Ok in H as (words & Hwords & [= <-]).
      unfold Join. rewrite (mapR_lower _ _ Hwords), concat_Split. reflexivity. }
  split; [exact Hlower|].
  apply (f_equal String.length) in Hlower. unfold ToLowerASCII in Hlower.
  rewrite !mapBytes_length in Hlower. exact Hlower.
Qed.

(** X3 on [online_store_url]. *)
Lemma capitalize_keeps_letters_witness :
  ToLowerASCII "OnlineStoreURL" = ToLowerASCII (dropByte "_"%char "online_store_url") /\
  String.length "OnlineStoreURL" = String.length (dropByte "_"%char "online_store_url").
Proof.
  apply (capitalize_keeps_letters "online_store_url" "OnlineStoreURL").
  vm_compute. reflexivity.
Defined.
